(** * Verification of the client-side task synchronisation engine of
      shadcn-table: the signature worker, the task store and its helpers. *)

From Stdlib Require Import ZArith Lia Ascii String.
From stdpp Require Import base list gmap strings sorting.

Open Scope list_scope.
Set Warnings "-register-all".

(** ** Results of JavaScript computations that may throw *)

Inductive result (A : Type) : Type :=
| Ok (a : A)
| Throw (msg : string).
Arguments Ok {A} a.
Arguments Throw {A} msg.

Definition bind_result {A B} (r : result A) (k : A -> result B) : result B :=
  match r with
  | Ok a => k a
  | Throw m => Throw m
  end.

(** ** The task record ([src/src/db/indexeddb.ts]) *)

Inductive task_status := Todo | InProgress | Done | Canceled.
Inductive task_label := Bug | Feature | Documentation | Enhancement.
Inductive task_priority := Low | Medium | High.

(** A timestamp field as the program meets it at run time: a [Date] object
    with its time value ([None] is the NaN time value of an invalid date),
    a string (tasks decoded with [JSON.parse] from Redis carry their dates
    as strings), or [undefined] for legacy records that lack the field. *)
Inductive tsval :=
| TDate (tv : option Z)
| TStr (s : string)
| TMissing.

Record Task := mkTask {
  id : string;
  code : string;
  title : string;
  estimatedHours : Z;
  status : task_status;
  label : task_label;
  priority : task_priority;
  archived : bool;
  createdAt : tsval;
  updatedAt : tsval
}.

Definition status_string (s : task_status) : string :=
  match s with
  | Todo => "todo" | InProgress => "in-progress" | Done => "done"
  | Canceled => "canceled"
  end.

Definition priority_string (p : task_priority) : string :=
  match p with Low => "low" | Medium => "medium" | High => "high" end.

(** ** JSON text *)

(** JSON text is a list of characters (code units below 256). *)
Abbreviation text := (list ascii).

Definition los (s : string) : text := list_ascii_of_string s.

Definition dquote : ascii := "034"%char.
Definition bslash : ascii := "092"%char.

Definition hex_digit (n : nat) : ascii :=
  ascii_of_nat (if Nat.ltb n 10 then 48 + n else 87 + n).

(** QuoteJSONString on one code unit, as [JSON.stringify] does it. *)
Definition quote_char (c : ascii) : text :=
  let n := nat_of_ascii c in
  if Nat.eqb n 8 then [bslash; "b"%char]
  else if Nat.eqb n 9 then [bslash; "t"%char]
  else if Nat.eqb n 10 then [bslash; "n"%char]
  else if Nat.eqb n 12 then [bslash; "f"%char]
  else if Nat.eqb n 13 then [bslash; "r"%char]
  else if Nat.eqb n 34 then [bslash; dquote]
  else if Nat.eqb n 92 then [bslash; bslash]
  else if Nat.ltb n 32 then
    [bslash; "u"%char; "0"%char; "0"%char; hex_digit (n / 16); hex_digit (n mod 16)]
  else [c].

Fixpoint quote_body (s : string) : text :=
  match s with
  | EmptyString => []
  | String c r => quote_char c ++ quote_body r
  end.

Definition quote_json_string (s : string) : text :=
  dquote :: quote_body s ++ [dquote].

(** The JSON values the program serialises: strings, arrays and objects
    whose properties may be [undefined] (omitted by [JSON.stringify]). *)
Inductive json :=
| JStr (s : string)
| JArr (l : list json)
| JObj (props : list (string * option json)).

Fixpoint join (sep : text) (l : list text) : text :=
  match l with
  | [] => []
  | [x] => x
  | x :: r => x ++ sep ++ join sep r
  end.

Fixpoint stringify (j : json) : text :=
  match j with
  | JStr s => quote_json_string s
  | JArr l => "["%char :: join [","%char] (map stringify l) ++ ["]"%char]
  | JObj props =>
      "{"%char ::
        join [","%char]
          ((fix go (ps : list (string * option json)) : list text :=
              match ps with
              | [] => []
              | (k, None) :: r => go r
              | (k, Some v) :: r => (quote_json_string k ++ ":"%char :: stringify v) :: go r
              end) props)
        ++ ["}"%char]
  end.

(** ** Dates: [Date.prototype.toISOString] *)

Open Scope Z_scope.

(** Days since 1970-01-01 to (year, month, day) in the proleptic Gregorian
    calendar, split into the 400-year era and the day of that era. *)
Definition doe_to_yoe_md (doe : Z) : Z * Z * Z :=
  let yoe := (doe - doe / 1460 + doe / 36524 - doe / 146096) / 365 in
  let doy := doe - (365 * yoe + yoe / 4 - yoe / 100) in
  let mp := (5 * doy + 2) / 153 in
  let d := doy - (153 * mp + 2) / 5 + 1 in
  let m := if mp <? 10 then mp + 3 else mp - 9 in
  (yoe, m, d)%Z.

Definition yoe_md_to_doe (yoe m d : Z) : Z :=
  let mp := if 2 <? m then m - 3 else m + 9 in
  let doy := (153 * mp + 2) / 5 + d - 1 in
  (yoe * 365 + yoe / 4 - yoe / 100 + doy)%Z.

Definition civil_from_days (days : Z) : Z * Z * Z :=
  let z := (days + 719468)%Z in
  let era := (z / 146097)%Z in
  let doe := (z mod 146097)%Z in
  let '(yoe, m, d) := doe_to_yoe_md doe in
  ((era * 400 + yoe + (if m <=? 2 then 1 else 0))%Z, m, d).

Definition days_from_civil (y m d : Z) : Z :=
  let y' := (y - (if m <=? 2 then 1 else 0))%Z in
  (y' / 400 * 146097 + yoe_md_to_doe (y' mod 400) m d - 719468)%Z.

Definition msPerDay : Z := 86400000.
Definition maxTimeValue : Z := 8640000000000000.

Definition digit (n : Z) : ascii := ascii_of_nat (48 + Z.to_nat n).

(** [k] decimal digits of [x], most significant first, zero padded. *)
Fixpoint pad (k : nat) (x : Z) : text :=
  match k with
  | O => []
  | S k' => digit ((x / 10 ^ Z.of_nat k') mod 10) :: pad k' x
  end.

Definition year_text (y : Z) : text :=
  if (0 <=? y) && (y <=? 9999) then pad 4 y
  else (if y <? 0 then "-"%char else "+"%char) :: pad 6 (Z.abs y).

Definition iso_of_time (t : Z) : text :=
  let days := (t / msPerDay)%Z in
  let msd := (t mod msPerDay)%Z in
  let '(y, m, d) := civil_from_days days in
  let h := (msd / 3600000)%Z in
  let r1 := (msd mod 3600000)%Z in
  let mi := (r1 / 60000)%Z in
  let r2 := (r1 mod 60000)%Z in
  let s := (r2 / 1000)%Z in
  let ms := (r2 mod 1000)%Z in
  year_text y ++ "-"%char :: pad 2 m ++ "-"%char :: pad 2 d ++ "T"%char :: pad 2 h
    ++ ":"%char :: pad 2 mi ++ ":"%char :: pad 2 s ++ "."%char :: pad 3 ms ++ ["Z"%char].

(** [toISOString] throws a RangeError on an invalid date; a time value
    outside the ECMAScript range is the NaN of an invalid date too. *)
Definition toISOString (tv : option Z) : result text :=
  match tv with
  | Some t => if (Z.abs t <=? maxTimeValue)%Z then Ok (iso_of_time t)
              else Throw "Invalid time value"
  | None => Throw "Invalid time value"
  end.

(** ** The signature worker ([src/unnamed/part_001]) *)

Definition CHUNK_SIZE : nat := 1000.

Fixpoint map_result {A B} (f : A -> result B) (l : list A) : result (list B) :=
  match l with
  | [] => Ok []
  | x :: r => bind_result (f x) (fun y => bind_result (map_result f r) (fun ys => Ok (y :: ys)))
  end.

(** [for (i = 0; i < tasks.length; i += CHUNK_SIZE) chunks.push(tasks.slice(i, i + CHUNK_SIZE))];
    the fuel is the length of the list, one chunk per round at least. *)
Fixpoint chunks_from {A} (fuel : nat) (l : list A) : list (list A) :=
  match fuel with
  | O => []
  | S f =>
      match l with
      | [] => []
      | _ => firstn CHUNK_SIZE l :: chunks_from f (skipn CHUNK_SIZE l)
      end
  end.

(** The ternary [t.updatedAt instanceof Date ? t.updatedAt.toISOString() : t.updatedAt]. *)
Definition updatedAt_value (v : tsval) : result (option json) :=
  match v with
  | TDate tv => bind_result (toISOString tv) (fun s => Ok (Some (JStr (string_of_list_ascii s))))
  | TStr s => Ok (Some (JStr s))
  | TMissing => Ok None
  end.

(** [chunk.map((t) => ({ id, status, priority, updatedAt }))] on one task. *)
Definition minimal_task (t : Task) : result json :=
  bind_result (updatedAt_value (updatedAt t)) (fun upd =>
    Ok (JObj [("id", Some (JStr (id t)));
              ("status", Some (JStr (status_string (status t))));
              ("priority", Some (JStr (priority_string (priority t))));
              ("updatedAt", upd)])).

Definition chunk_signature (chunk : list Task) : result text :=
  bind_result (map_result minimal_task chunk) (fun objs => Ok (stringify (JArr objs))).

Definition generateSignature (tasks : list Task) : result text :=
  bind_result (map_result chunk_signature (chunks_from (length tasks) tasks))
    (fun parts => Ok (concat parts)).

(** ** The local cache: the Dexie table [db.tasks] ([src/src/db/indexeddb.ts]) *)

(** The object store keeps one record per primary key [id], in key order
    (IndexedDB orders string keys by code units); [put] replaces a record
    with the same key. *)
Fixpoint db_put (t : Task) (l : list Task) : list Task :=
  match l with
  | [] => [t]
  | x :: r =>
      match String.compare (id t) (id x) with
      | Lt => t :: l
      | Eq => t :: r
      | Gt => x :: db_put t r
      end
  end.

Definition db_bulkPut_list (ts : list Task) (l : list Task) : list Task :=
  fold_left (fun acc t => db_put t acc) ts l.

(** ** The task store ([src/src/stores/task-store.tsx], worker variant) *)

(** Observable effects of one [fetchAllTasksFromServer] cycle: React state
    setters, the server action, the worker request and the cache calls. *)
Inductive effect :=
| ESetLoading (b : bool)
| ESetError (e : option string)
| ESetAllTasks (ts : list Task)
| EFetch
| EPost (ts : list Task)
| EDbToArray
| EDbClear
| EDbBulkPut (ts : list Task).

Record store_state := mkStore {
  allTasks : list Task;
  isLoadingAllTasks : bool;
  errorLoadingAllTasks : option string;
  db_tasks : list Task;
  db_fails : list bool;
  trace : list effect
}.

(** How an awaited computation ends: with a value, with an exception, or
    never (the awaited promise stays pending). *)
Inductive outcome (A : Type) :=
| Returned (a : A)
| Raised (e : string)
| Suspended.
Arguments Returned {A} a.
Arguments Raised {A} e.
Arguments Suspended {A}.

Definition M (A : Type) : Type := store_state -> outcome A * store_state.

Global Instance M_ret : MRet M := fun A a st => (Returned a, st).
Global Instance M_bind : MBind M := fun A B k m st =>
  match m st with
  | (Returned a, st') => k a st'
  | (Raised e, st') => (Raised e, st')
  | (Suspended, st') => (Suspended, st')
  end.

Definition emit (e : effect) (st : store_state) : store_state :=
  mkStore (allTasks st) (isLoadingAllTasks st) (errorLoadingAllTasks st)
    (db_tasks st) (db_fails st) (trace st ++ [e]).

Definition setIsLoadingAllTasks (b : bool) : M unit := fun st =>
  let st := emit (ESetLoading b) st in
  (Returned tt, mkStore (allTasks st) b (errorLoadingAllTasks st) (db_tasks st) (db_fails st) (trace st)).

Definition setErrorLoadingAllTasks (e : option string) : M unit := fun st =>
  let st := emit (ESetError e) st in
  (Returned tt, mkStore (allTasks st) (isLoadingAllTasks st) e (db_tasks st) (db_fails st) (trace st)).

Definition setAllTasks (ts : list Task) : M unit := fun st =>
  let st := emit (ESetAllTasks ts) st in
  (Returned tt, mkStore ts (isLoadingAllTasks st) (errorLoadingAllTasks st) (db_tasks st) (db_fails st) (trace st)).

Definition db_error : string := "DatabaseClosedError".

(** [db_fails] scripts the IndexedDB calls in the order they are made: the
    next call rejects (with a [DatabaseClosedError]) when the head is [true];
    once the script is used up, every call succeeds. *)
Definition db_next (st : store_state) : bool * store_state :=
  match db_fails st with
  | [] => (false, st)
  | b :: r => (b, mkStore (allTasks st) (isLoadingAllTasks st) (errorLoadingAllTasks st)
                    (db_tasks st) r (trace st))
  end.

Definition db_toArray : M (list Task) := fun st =>
  let '(fails, st) := db_next (emit EDbToArray st) in
  if fails then (Raised db_error, st) else (Returned (db_tasks st), st).

Definition db_clear : M unit := fun st =>
  let '(fails, st) := db_next (emit EDbClear st) in
  if fails then (Raised db_error, st)
  else (Returned tt, mkStore (allTasks st) (isLoadingAllTasks st) (errorLoadingAllTasks st) [] (db_fails st) (trace st)).

Definition db_bulkPut (ts : list Task) : M unit := fun st =>
  let '(fails, st) := db_next (emit (EDbBulkPut ts) st) in
  if fails then (Raised db_error, st)
  else (Returned tt, mkStore (allTasks st) (isLoadingAllTasks st) (errorLoadingAllTasks st)
                       (db_bulkPut_list ts (db_tasks st)) (db_fails st) (trace st)).

(** [try { m } catch (e) { h(e) }] and [try { m } finally { f }]. *)
Definition try_catch {A} (m : M A) (h : string -> M A) : M A := fun st =>
  match m st with
  | (Raised e, st') => h e st'
  | r => r
  end.

Definition try_finally {A} (m : M A) (f : M unit) : M A := fun st =>
  match m st with
  | (Suspended, st') => (Suspended, st')
  | (r, st') =>
      match f st' with
      | (Returned _, st'') => (r, st'')
      | (Raised e, st'') => (Raised e, st'')
      | (Suspended, st'') => (Suspended, st'')
      end
  end.

(** The server action [getAllTasksFromKV] returns [{ data, error }]. *)
Record kv_result := mkKv { kv_data : option (list Task); kv_error : option string }.

(** What the awaited server action does in this cycle. *)
Inductive fetch_outcome :=
| FetchReturns (r : kv_result)
| FetchRejects (msg : string)
| FetchPending.

Definition getAllTasksFromKV (o : fetch_outcome) : M kv_result := fun st =>
  let st := emit EFetch st in
  match o with
  | FetchReturns r => (Returned r, st)
  | FetchRejects m => (Raised m, st)
  | FetchPending => (Suspended, st)
  end.

(** A JavaScript value as strict inequality [!==] sees it: a string, compared
    by content, or an object, compared by identity ([ref] names the object).
    The data of every ["message"] event is a fresh structured clone. *)
Inductive js_value :=
| JSString (s : string)
| JSObject (ref : nat).

Definition strict_neq (a b : js_value) : bool :=
  match a, b with
  | JSString x, JSString y => negb (String.eqb x y)
  | JSObject r, JSObject r' => negb (Nat.eqb r r')
  | _, _ => true
  end.

(** What the temporary listener of [fetchedSignaturePromise] receives: the
    data of the next ["message"] event, an ["error"] event (the promise
    rejects), or nothing at all. *)
Inductive worker_reply :=
| WMessage (data : js_value)
| WError (msg : string)
| WSilent.

Definition postMessage (ts : list Task) : M unit := fun st => (Returned tt, emit (EPost ts) st).

Definition await_worker (w : worker_reply) : M js_value := fun st =>
  match w with
  | WMessage s => (Returned s, st)
  | WError m => (Raised m, st)
  | WSilent => (Suspended, st)
  end.

(** JavaScript truthiness of [string | null]. *)
Definition truthy_string (e : option string) : bool :=
  match e with
  | Some s => negb (String.eqb s "")
  | None => false
  end.

Definition load_offline_fallback : M unit :=
  offlineTasks ← db_toArray;
  if Nat.ltb 0 (length offlineTasks) then setAllTasks offlineTasks else setAllTasks [].

(** [fetchAllTasksFromServer] of the worker-based [TasksProvider]
    (task-store.tsx lines 208-305, identical at lines 454-551).
    [currentTasksSignature] is the value captured by the [useCallback]
    closure: [""] at first, [JSON.stringify([])] for an empty task list,
    otherwise the data of the last message of the worker;
    [workerRef.current] is [None] outside the browser. *)
Definition fetchAllTasksFromServer (currentTasksSignature : js_value)
    (fetch : fetch_outcome) (workerRef : option worker_reply) : M unit :=
  setIsLoadingAllTasks true;;
  setErrorLoadingAllTasks None;;
  try_finally
    (try_catch
      (result ← getAllTasksFromKV fetch;
       if truthy_string (kv_error result) then
         setErrorLoadingAllTasks (kv_error result);;
         load_offline_fallback
       else
         match kv_data result with
         | Some fetchedDataSafe =>
             match workerRef with
             | Some worker =>
                 try_catch
                   (postMessage fetchedDataSafe;;
                    fetchedTasksSignature ← await_worker worker;
                    if strict_neq currentTasksSignature fetchedTasksSignature then
                      setAllTasks fetchedDataSafe;;
                      db_clear;;
                      db_bulkPut fetchedDataSafe
                    else mret tt)
                   (fun _workerError => mret tt)
             | None => mret tt
             end
         | None =>
             if strict_neq currentTasksSignature (JSString "[]") then
               setAllTasks [];;
               db_clear
             else mret tt
         end)
      (fun err =>
         setErrorLoadingAllTasks (Some err);;
         load_offline_fallback))
    (setIsLoadingAllTasks false).

(** ** Server actions on Redis ([src/unnamed/part_003]) *)

Global Instance task_status_eq_dec : EqDecision task_status.
Proof. solve_decision. Defined.
Global Instance task_label_eq_dec : EqDecision task_label.
Proof. solve_decision. Defined.
Global Instance task_priority_eq_dec : EqDecision task_priority.
Proof. solve_decision. Defined.

(** The fields an update may carry ([updatableKeys]); [None] is [undefined]. *)
Record UpdateTaskSchema := mkUpdate {
  u_title : option string;
  u_label : option task_label;
  u_status : option task_status;
  u_priority : option task_priority;
  u_estimatedHours : option Z
}.

Record action_result := mkAction { data : option Task; error : option string }.

(** Redis holds one JSON document per key [task:<id>]; the model keeps the
    record the document encodes. *)
Abbreviation redis_store := (gmap string Task).

(** How one awaited Redis call settles: it resolves, or it rejects with an
    [Error] whose [message] [getErrorMessage] returns. A rejected call is
    taken to leave the store as it was. *)
Inductive redis_call :=
| RedisOk
| RedisRejects (msg : string).

(** The client of part_005 is built with [new Redis({ url, token })], which
    leaves the client option [automaticDeserialization] at its default,
    [true]: [get] and [mget] hand back each stored JSON document already
    parsed, as an object. *)
Definition automaticDeserialization : bool := true.

(** What [get] or [mget] hands back for a stored document: its JSON text, or
    the object it encodes. *)
Inductive redis_reply :=
| ReplyText (t : Task)
| ReplyObject (t : Task).

Definition redis_reply_of (t : Task) : redis_reply :=
  if automaticDeserialization then ReplyObject t else ReplyText t.

(** [JSON.parse(v)]: the text of a document parses back to the task; an
    object is first converted to the string [[object Object]], which is not
    JSON, and a [SyntaxError] is thrown (the message is V8's up to Node 18). *)
Definition json_parse_object_error : string := "Unexpected token o in JSON at position 1".

Definition JSON_parse (v : redis_reply) : result Task :=
  match v with
  | ReplyText t => Ok t
  | ReplyObject _ => Throw json_parse_object_error
  end.

Definition task_key (i : string) : string := ("task:" ++ i)%string.

(** One round of the loop over [updatableKeys]: [updateData[key] !== undefined
    && updateData[key] !== existingTask[key]]. *)
Definition update_field {A} `{EqDecision A} (u : option A) (cur : A) : option A :=
  match u with
  | Some v => if decide (v = cur) then None else Some v
  | None => None
  end.

Definition apply_updates (u : UpdateTaskSchema) (existingTask : Task) : bool * Task :=
  let t := existingTask in
  let '(c1, ti) := match update_field (u_title u) (title t) with
                   | Some v => (true, v) | None => (false, title t) end in
  let '(c2, la) := match update_field (u_label u) (label t) with
                   | Some v => (true, v) | None => (false, label t) end in
  let '(c3, st) := match update_field (u_status u) (status t) with
                   | Some v => (true, v) | None => (false, status t) end in
  let '(c4, pr) := match update_field (u_priority u) (priority t) with
                   | Some v => (true, v) | None => (false, priority t) end in
  let '(c5, eh) := match update_field (u_estimatedHours u) (estimatedHours t) with
                   | Some v => (true, v) | None => (false, estimatedHours t) end in
  (c1 || c2 || c3 || c4 || c5,
   mkTask (id t) (code t) ti eh st la pr (archived t) (createdAt t) (updatedAt t)).

Definition with_updatedAt (v : tsval) (t : Task) : Task :=
  mkTask (id t) (code t) (title t) (estimatedHours t) (status t) (label t)
    (priority t) (archived t) (createdAt t) v.

(** [updateTask]; [now] is the time value of [new Date()], [get_call] and
    [set_call] say how [redis.get] and [redis.set] settle. Every exception
    reaches the [catch], which returns [{ data: null, error }]. *)
Definition updateTask (now : Z) (input_id : string) (updateData : UpdateTaskSchema)
    (get_call set_call : redis_call) (redis : redis_store) : action_result * redis_store :=
  let taskKey := task_key input_id in
  match get_call with
  | RedisRejects m => (mkAction None (Some m), redis)
  | RedisOk =>
      match redis !! taskKey with
      | None => (mkAction None (Some "Task not found"), redis)
      | Some existingTaskJSON =>
          match JSON_parse (redis_reply_of existingTaskJSON) with
          | Throw m => (mkAction None (Some m), redis)
          | Ok existingTask =>
              let '(hasActualChanges, updatedTask) := apply_updates updateData existingTask in
              if hasActualChanges then
                let updatedTask := with_updatedAt (TDate (Some now)) updatedTask in
                match set_call with
                | RedisRejects m => (mkAction None (Some m), redis)
                | RedisOk => (mkAction (Some updatedTask) None, <[taskKey := updatedTask]> redis)
                end
              else (mkAction (Some existingTask) None, redis)
          end
      end
  end.

(** ** Faceted counts ([src/src/app/_lib/queries.ts]) *)

Record status_counts := mkCounts {
  c_todo : nat; c_in_progress : nat; c_done : nat; c_canceled : nat
}.

Definition zero_counts : status_counts := mkCounts 0 0 0 0.

Definition count_of (c : status_counts) (s : task_status) : nat :=
  match s with
  | Todo => c_todo c | InProgress => c_in_progress c
  | Done => c_done c | Canceled => c_canceled c
  end.

(** [counts[task.status] = (counts[task.status] || 0) + 1]; the guard
    [task.status in counts] holds for each of the four statuses. *)
Definition bump (c : status_counts) (s : task_status) : status_counts :=
  match s with
  | Todo => mkCounts (S (c_todo c)) (c_in_progress c) (c_done c) (c_canceled c)
  | InProgress => mkCounts (c_todo c) (S (c_in_progress c)) (c_done c) (c_canceled c)
  | Done => mkCounts (c_todo c) (c_in_progress c) (S (c_done c)) (c_canceled c)
  | Canceled => mkCounts (c_todo c) (c_in_progress c) (c_done c) (S (c_canceled c))
  end.

(** The table read: [db.tasks.toArray()], or a failing read. *)
Definition db_read (tasks : list Task) (fails : bool) : result (list Task) :=
  if fails then Throw db_error else Ok tasks.

(** First [getTaskStatusCounts] (lines 22-48): a full scan. *)
Definition getTaskStatusCounts_scan (tasks : list Task) (fails : bool) : status_counts :=
  match db_read tasks fails with
  | Ok ts => fold_left (fun c t => bump c (status t)) ts zero_counts
  | Throw _ => zero_counts
  end.

(** [db.tasks.where("status").equals(s).count()]. *)
Definition indexed_count (tasks : list Task) (s : task_status) : nat :=
  length (filter (fun t => status t = s) tasks).

(** Second [getTaskStatusCounts] (lines 374-409): one indexed count per
    status, gathered with [Promise.all]. *)
Definition getTaskStatusCounts_indexed (tasks : list Task) (fails : bool) : status_counts :=
  match db_read tasks fails with
  | Ok ts =>
      let statuses := [Todo; InProgress; Done; Canceled] in
      let countsArray := map (indexed_count ts) statuses in
      fold_left (fun c '(s, n) =>
                   match s with
                   | Todo => mkCounts n (c_in_progress c) (c_done c) (c_canceled c)
                   | InProgress => mkCounts (c_todo c) n (c_done c) (c_canceled c)
                   | Done => mkCounts (c_todo c) (c_in_progress c) n (c_canceled c)
                   | Canceled => mkCounts (c_todo c) (c_in_progress c) (c_done c) n
                   end)
        (zip statuses countsArray) zero_counts
  | Throw _ => zero_counts
  end.

(** ** The worker channel as the store uses it (task-store.tsx lines 165-250) *)

(** Requests are numbered in posting order; the number is bookkeeping of the
    model only, the store sends the bare task array. The worker answers in
    posting order, as the synchronous handler of the store's worker does. *)
Record channel := mkChannel {
  ch_next : nat;
  ch_queue : list nat;          (** requests not answered yet *)
  ch_listeners : list nat;      (** temporary listeners, by their own request *)
  currentTasksSignature : js_value
}.

Inductive client_event :=
| CEffectPost                   (** the [allTasks] effect posts the current tasks *)
| CFetchPost                    (** a fetch cycle adds its listeners, then posts *)
| CDeliver (payload : js_value).  (** the worker posts the answer to the oldest request *)

(** A temporary listener resolving [fetchedSignaturePromise]: the request it
    was registered for, the request whose answer it received, the value. *)
Record resolution := mkResolution {
  res_listener : nat; res_answered : nat; res_payload : js_value
}.

Definition client_step (ch : channel) (e : client_event) : channel * list resolution :=
  match e with
  | CEffectPost =>
      (mkChannel (S (ch_next ch)) (ch_queue ch ++ [ch_next ch]) (ch_listeners ch)
         (currentTasksSignature ch), [])
  | CFetchPost =>
      (mkChannel (S (ch_next ch)) (ch_queue ch ++ [ch_next ch])
         (ch_listeners ch ++ [ch_next ch]) (currentTasksSignature ch), [])
  | CDeliver p =>
      match ch_queue ch with
      | [] => (ch, [])
      | k :: q =>
          (* [onmessage] sets [currentTasksSignature]; every temporary
             listener resolves with [event.data] and removes itself. *)
          (mkChannel (ch_next ch) q [] p, map (fun l => mkResolution l k p) (ch_listeners ch))
      end
  end.

Fixpoint client_run (ch : channel) (evs : list client_event) : channel * list resolution :=
  match evs with
  | [] => (ch, [])
  | e :: r =>
      let '(ch1, out1) := client_step ch e in
      let '(ch2, out2) := client_run ch1 r in
      (ch2, out1 ++ out2)
  end.

Definition channel_init : channel := mkChannel 0 [] [] (JSString "").

(** ** The request/response worker ([src/unnamed/part_001]) *)

(** [`${t.updatedAt}`]: [Date.prototype.toString] in the UTC time zone. *)
Definition weekday_name (n : Z) : string :=
  match n with
  | 0 => "Sun" | 1 => "Mon" | 2 => "Tue" | 3 => "Wed" | 4 => "Thu" | 5 => "Fri"
  | _ => "Sat"
  end.

Definition month_name (m : Z) : string :=
  match m with
  | 1 => "Jan" | 2 => "Feb" | 3 => "Mar" | 4 => "Apr" | 5 => "May" | 6 => "Jun"
  | 7 => "Jul" | 8 => "Aug" | 9 => "Sep" | 10 => "Oct" | 11 => "Nov" | _ => "Dec"
  end.

Definition year_min4 (y : Z) : text :=
  let a := Z.abs y in
  (if y <? 0 then ["-"%char] else [])
    ++ pad (if a <? 10000 then 4 else if a <? 100000 then 5 else 6) a.

Definition date_to_string (t : Z) : string :=
  let days := t / msPerDay in
  let msd := t mod msPerDay in
  let '(y, m, d) := civil_from_days days in
  let h := msd / 3600000 in
  let mi := (msd mod 3600000) / 60000 in
  let s := (msd mod 60000) / 1000 in
  string_of_list_ascii
    (los (weekday_name ((days + 4) mod 7)) ++ " "%char :: los (month_name m)
       ++ " "%char :: pad 2 d ++ " "%char :: year_min4 y ++ " "%char :: pad 2 h
       ++ ":"%char :: pad 2 mi ++ ":"%char :: pad 2 s
       ++ los " GMT+0000 (Coordinated Universal Time)").

Definition template_tsval (v : tsval) : string :=
  match v with
  | TDate (Some t) => if Z.abs t <=? maxTimeValue then date_to_string t else "Invalid Date"
  | TDate None => "Invalid Date"
  | TStr s => s
  | TMissing => "undefined"
  end.

Definition str_leb (a b : string) : bool :=
  match String.compare a b with Gt => false | _ => true end.

Fixpoint insert_sorted {A} (le : A -> A -> bool) (x : A) (l : list A) : list A :=
  match l with
  | [] => [x]
  | y :: r => if le y x then y :: insert_sorted le x r else x :: l
  end.

(** [Array.prototype.sort]: stable, here an insertion sort. *)
Definition sort_by {A} (le : A -> A -> bool) (l : list A) : list A :=
  fold_left (fun acc x => insert_sorted le x acc) l [].

Definition generateCacheKey (tasks : list Task) : string :=
  String.concat "|"
    (sort_by str_leb (map (fun t => (id t ++ ":" ++ template_tsval (updatedAt t))%string) tasks)).

Record cache_entry := mkEntry { ce_signature : text; ce_timestamp : Z; ce_weight : Z }.

(** A JavaScript [Map] as an association list in insertion order. *)
Fixpoint map_get {V} (k : string) (m : list (string * V)) : option V :=
  match m with
  | [] => None
  | (k', v) :: r => if String.eqb k k' then Some v else map_get k r
  end.

Fixpoint map_set {V} (k : string) (v : V) (m : list (string * V)) : list (string * V) :=
  match m with
  | [] => [(k, v)]
  | (k', v') :: r => if String.eqb k k' then (k', v) :: r else (k', v') :: map_set k v r
  end.

Definition map_delete {V} (k : string) (m : list (string * V)) : list (string * V) :=
  filter (fun kv => negb (String.eqb k kv.1)) m.

Definition CACHE_SIZE : nat := 100.

(** [cleanCache] at clock value [now]. *)
Definition cleanCache (now : Z) (cache : list (string * cache_entry)) : list (string * cache_entry) :=
  if Nat.leb (length cache) CACHE_SIZE then cache
  else
    let w e := ce_weight e.2 * (now - ce_timestamp e.2) in
    let entries := sort_by (fun a b => w a <=? w b) cache in
    let entriesToRemove := firstn (length entries - CACHE_SIZE) entries in
    fold_left (fun c kv => map_delete kv.1 c) entriesToRemove cache.

Record WorkerMessage := mkMsg { msg_id : string; msg_tasks : list Task; msg_type : string }.

Record WorkerResponse := mkResp {
  resp_id : string; resp_signature : option text; resp_error : option string;
  resp_type : option string
}.

Record worker_state := mkWorker {
  taskCache : list (string * cache_entry);
  pendingTasks : list (string * list Task);
  debounceArmed : bool
}.

Inductive worker_event :=
| WMsg (now : Z) (m : WorkerMessage)   (** a message event, at clock [now] *)
| WTimer (now : Z).                     (** the debounce timeout fires *)

(** [processPendingTasks]: the pending requests in insertion order. *)
Fixpoint process_pending (now : Z) (cache : list (string * cache_entry))
    (pending : list (string * list Task)) : list (string * cache_entry) * list WorkerResponse :=
  match pending with
  | [] => (cache, [])
  | (i, tasks) :: r =>
      let cacheKey := generateCacheKey tasks in
      match generateSignature tasks with
      | Ok signature =>
          let cache1 := cleanCache now (map_set cacheKey (mkEntry signature now 1) cache) in
          let '(cache2, out) := process_pending now cache1 r in
          (cache2, mkResp i (Some signature) None None :: out)
      | Throw m =>
          let '(cache2, out) := process_pending now cache r in
          (cache2, mkResp i None (Some m) None :: out)
      end
  end.

(** One event of the worker: [self.onmessage] (with [processTasks]) or the
    debounce timer; the responses it posts. *)
Definition worker_step (ws : worker_state) (e : worker_event) : worker_state * list WorkerResponse :=
  match e with
  | WMsg now m =>
      if String.eqb (msg_type m) "process" then
        let cacheKey := generateCacheKey (msg_tasks m) in
        match map_get cacheKey (taskCache ws) with
        | Some cached =>
            (mkWorker (map_set cacheKey (mkEntry (ce_signature cached) now (ce_weight cached + 1))
                         (taskCache ws)) (pendingTasks ws) (debounceArmed ws),
             [mkResp (msg_id m) (Some (ce_signature cached)) None None])
        | None =>
            (mkWorker (taskCache ws) (map_set (msg_id m) (msg_tasks m) (pendingTasks ws)) true, [])
        end
      else if String.eqb (msg_type m) "cleanup" then
        (mkWorker [] [] false, [mkResp (msg_id m) None None (Some "cleanup")])
      else
        (ws, [mkResp (msg_id m) None (Some ("Unknown message type: " ++ msg_type m)%string) None])
  | WTimer now =>
      if debounceArmed ws then
        let '(cache', out) := process_pending now (taskCache ws) (pendingTasks ws) in
        (mkWorker cache' [] false, out)
      else (ws, [])
  end.

Fixpoint worker_run (ws : worker_state) (evs : list worker_event) : worker_state * list WorkerResponse :=
  match evs with
  | [] => (ws, [])
  | e :: r =>
      let '(ws1, out1) := worker_step ws e in
      let '(ws2, out2) := worker_run ws1 r in
      (ws2, out1 ++ out2)
  end.

Definition worker_init : worker_state := mkWorker [] [] false.

Definition received_ids (evs : list worker_event) : list string :=
  flat_map (fun e => match e with WMsg _ m => [msg_id m] | WTimer _ => [] end) evs.

(** What the worker posts back from [self.onmessage]'s [catch]:
    [{ id: event.data.id, error }], [er_id = None] being [undefined]. *)
Record ErrorReply := mkErrorReply { er_id : option string; er_error : string }.

(** [self.onmessage] on a message whose data is a bare task array, as the
    store of task-store.tsx posts it: [const { id, tasks, type } = event.data]
    gives three [undefined]s, the [switch] falls to [default], whose
    [Unknown message type: ${type}] is caught; the state is left as it was. *)
Definition onmessage_bare_array (ws : worker_state) (tasks : list Task) : worker_state * ErrorReply :=
  let type_text := "undefined" in
  (ws, mkErrorReply None ("Unknown message type: " ++ type_text)%string).

(** ** [Date.parse] and the main-thread comparison (task-store.tsx lines 686-701) *)

Fixpoint read_digits (k : nat) (acc : Z) (l : text) : option (Z * text) :=
  match k with
  | O => Some (acc, l)
  | S k' =>
      match l with
      | c :: r =>
          let n := Z.of_nat (nat_of_ascii c) - 48 in
          if (0 <=? n) && (n <=? 9) then read_digits k' (acc * 10 + n) r else None
      | [] => None
      end
  end.

Definition expect (c : ascii) (l : text) : option text :=
  match l with
  | c' :: r => if Ascii.eqb c c' then Some r else None
  | [] => None
  end.

Definition read_year (l : text) : option (Z * text) :=
  match l with
  | c :: r =>
      if Ascii.eqb c "+"%char then read_digits 6 0 r
      else if Ascii.eqb c "-"%char then
        match read_digits 6 0 r with
        | Some (v, r') => if v =? 0 then None else Some (- v, r')
        | None => None
        end
      else read_digits 4 0 l
  | [] => None
  end.

(** [Date.parse] on strings of the full date-time form [toISOString]
    produces, which every engine reads the same way; [None] is NaN. The
    language leaves other strings (a date-only form such as [2023-11-14], or
    any format an engine accepts on its own) to the implementation, so the
    definitions below take [Date.parse] as a parameter [date_parse], of which
    [parse_iso] is one instance. *)
Definition parse_iso (l : text) : option Z :=
  '(y, l) ← read_year l;
  l ← expect "-"%char l; '(mo, l) ← read_digits 2 0 l;
  l ← expect "-"%char l; '(d, l) ← read_digits 2 0 l;
  l ← expect "T"%char l; '(h, l) ← read_digits 2 0 l;
  l ← expect ":"%char l; '(mi, l) ← read_digits 2 0 l;
  l ← expect ":"%char l; '(s, l) ← read_digits 2 0 l;
  l ← expect "."%char l; '(ms, l) ← read_digits 3 0 l;
  l ← expect "Z"%char l;
  match l with
  | [] =>
      if (1 <=? mo) && (mo <=? 12) && (1 <=? d) && (d <=? 31) && (h <? 24)
         && (mi <? 60) && (s <? 60) then
        let t := days_from_civil y mo d * msPerDay + h * 3600000 + mi * 60000 + s * 1000 + ms in
        if Z.abs t <=? maxTimeValue then Some t else None
      else None
  | _ => None
  end.

(** A JavaScript number of the normalised record. *)
Inductive jsnum := JNum (z : Z) | JNaN.

Definition truthy_tsval (v : tsval) : bool :=
  match v with
  | TDate _ => true
  | TStr s => negb (String.eqb s "")
  | TMissing => false
  end.

(** [new Date(v).getTime()], [date_parse] being the engine's [Date.parse]
    ([None] for NaN). *)
Definition date_getTime (date_parse : string -> option Z) (v : tsval) : jsnum :=
  match v with
  | TDate (Some t) => if Z.abs t <=? maxTimeValue then JNum t else JNaN
  | TDate None => JNaN
  | TStr s => match date_parse s with Some t => JNum t | None => JNaN end
  | TMissing => JNaN
  end.

Record NormalizedTask := mkNormalized {
  n_task : Task;          (** [...task] *)
  n_createdAt : jsnum;
  n_updatedAt : jsnum
}.

(** The [map] callback of [normalizeTasksForComparison]. *)
Definition normalize_task (date_parse : string -> option Z) (task : Task) : NormalizedTask :=
  mkNormalized task
    (if truthy_tsval (createdAt task) then date_getTime date_parse (createdAt task) else JNum 0)
    (if truthy_tsval (updatedAt task) then date_getTime date_parse (updatedAt task) else JNum 0).

(** ** Overlapping calls of [fetchAllTasksFromServer] *)

(** The effects a call emits, from a store whose trace is reset. *)
Definition with_trace (st : store_state) (l : list effect) : store_state :=
  mkStore (allTasks st) (isLoadingAllTasks st) (errorLoadingAllTasks st) (db_tasks st) (db_fails st) l.

Definition call_effects (cur : js_value) (fetch : fetch_outcome) (w : option worker_reply)
    (st : store_state) : list effect :=
  trace (fetchAllTasksFromServer cur fetch w (with_trace st [])).2.

(** Cooperative scheduling: the effects of two concurrent calls reach the
    outside world in some interleaving of their own sequences. *)
Inductive interleaving {A} : list A -> list A -> list A -> Prop :=
| il_nil : interleaving [] [] []
| il_left x l1 l2 l : interleaving l1 l2 l -> interleaving (x :: l1) l2 (x :: l)
| il_right x l1 l2 l : interleaving l1 l2 l -> interleaving l1 (x :: l2) (x :: l).

Definition is_fetch (e : effect) : bool := match e with EFetch => true | _ => false end.
Definition is_post (e : effect) : bool := match e with EPost _ => true | _ => false end.

Fixpoint count_effects (p : effect -> bool) (l : list effect) : nat :=
  match l with
  | [] => 0
  | e :: r => (if p e then 1 else 0) + count_effects p r
  end%nat.

(** ** Sample data *)

Definition task_a : Task :=
  mkTask "TASK-0001" "TASK-0001" "Fix login redirect" 3 Todo Bug High false
    (TDate (Some 1700000000000)) (TDate (Some 1700000360000)).

Definition task_b : Task :=
  mkTask "TASK-0002" "TASK-0002" "Export to CSV" 5 Done Feature Low false
    (TDate (Some 1700000000000)) (TDate (Some 1700000720000)).

Definition store_empty : store_state := mkStore [] true None [] [] [].

Definition store_with_a : store_state := mkStore [task_a] false None [task_a] [] [].

Definition redis_with_a : redis_store := {[ task_key "TASK-0001" := task_a ]}.

Definition no_update : UpdateTaskSchema := mkUpdate None None None None None.

Definition task_a_retitled : Task :=
  mkTask "TASK-0001" "TASK-0001" "Fix logout redirect" 3 Todo Bug High false
    (TDate (Some 1700000000000)) (TDate (Some 1700000360000)).

Definition task_a_invalid_date : Task :=
  mkTask "TASK-0001" "TASK-0001" "Fix login redirect" 3 Todo Bug High false
    (TDate (Some 1700000000000)) (TDate None).

Definition retitle (u : UpdateTaskSchema) (s : string) : UpdateTaskSchema :=
  mkUpdate (Some s) (u_label u) (u_status u) (u_priority u) (u_estimatedHours u).

(** A computation of the store that, from any state, appends to the trace
    effects among which exactly [n] are calls of the server action. *)
Definition fetches {A} (n : nat) (m : M A) : Prop :=
  forall st, exists new, trace (m st).2 = trace st ++ new /\ count_effects is_fetch new = n.

(** Events that post a request without delivering an answer. *)
Definition is_post_event (e : client_event) : bool :=
  match e with CDeliver _ => false | _ => true end.

(** ** Proof helpers: the text of one task record in the signature *)

Definition all_ascii : list ascii := map ascii_of_nat (seq 0 256).

Fixpoint text_prefixb (a b : text) : bool :=
  match a, b with
  | [], _ => true
  | x :: a', y :: b' => Ascii.eqb x y && text_prefixb a' b'
  | _, _ => false
  end.

Definition field_text (k v : string) (rest : text) : text :=
  dquote :: los k ++ dquote :: ":"%char :: dquote :: quote_body v ++ dquote :: rest.

Definition min_text (i s p : string) (u : option string) (rest : text) : text :=
  "{"%char :: field_text "id" i (","%char :: field_text "status" s (","%char ::
    field_text "priority" p
      (match u with
       | None => "}"%char :: rest
       | Some v => ","%char :: field_text "updatedAt" v ("}"%char :: rest)
       end))).

Definition chunk_text (g : Task -> text) (c : list Task) : text :=
  "["%char :: join [","%char] (map g c) ++ ["]"%char].

Definition task_text (t : Task) : text :=
  match minimal_task t with Ok j => stringify j | Throw _ => [] end.

Definition serialises (t : Task) : bool :=
  match minimal_task t with Ok _ => true | Throw _ => false end.

Definition updated_text (t : Task) : option string :=
  match updatedAt_value (updatedAt t) with Ok (Some (JStr s)) => Some s | _ => None end.


(** ** More server actions on Redis ([src/unnamed/part_003]) *)

(** [createTask]'s input ([createTaskSchema]). *)
Record CreateTaskSchema := mkCreate {
  c_title : string; c_label : task_label; c_status : task_status;
  c_priority : task_priority; c_estimatedHours : option Z
}.

(** [createTask]; [digits1] and [digits2] are the strings the two calls
    [customAlphabet("0123456789", 4)()] draw, [now1] and [now2] the time
    values of the two [new Date()], [set_call] how [redis.set] settles. *)
Definition createTask (digits1 digits2 : string) (now1 now2 : Z) (input : CreateTaskSchema)
    (set_call : redis_call) (redis : redis_store) : action_result * redis_store :=
  let newTask := mkTask ("TASK-" ++ digits1) ("TASK-" ++ digits2) (c_title input) 0
                   (c_status input) (c_label input) (c_priority input) false
                   (TDate (Some now1)) (TDate (Some now2)) in
  let taskKey := task_key (id newTask) in
  match set_call with
  | RedisRejects m => (mkAction None (Some m), redis)
  | RedisOk => (mkAction (Some newTask) None, <[taskKey := newTask]> redis)
  end.

(** [redis.del(...keys)]: removes the keys one after the other and returns
    how many of them existed. *)
Fixpoint redis_del (keys : list string) (redis : redis_store) : nat * redis_store :=
  match keys with
  | [] => (0%nat, redis)
  | k :: r =>
      let '(n, redis1) := match redis !! k with
                          | Some _ => (1%nat, delete k redis)
                          | None => (0%nat, redis)
                          end in
      let '(m, redis2) := redis_del r redis1 in
      ((n + m)%nat, redis2)
  end.

Record delete_result := mkDeleted { deleted_id : option string; delete_error : option string }.

Definition deleteTask (input_id : string) (del_call : redis_call) (redis : redis_store)
    : delete_result * redis_store :=
  let taskKey := task_key input_id in
  match del_call with
  | RedisRejects m => (mkDeleted None (Some m), redis)
  | RedisOk =>
      let '(result, redis') := redis_del [taskKey] redis in
      if Nat.eqb result 0 then (mkDeleted None (Some "Task not found or already deleted."), redis')
      else (mkDeleted (Some input_id) None, redis')
  end.

Record count_result := mkCountResult { count_data : option nat; count_error : option string }.

Definition deleteTasks (ids : list string) (del_call : redis_call) (redis : redis_store)
    : count_result * redis_store :=
  if Nat.eqb (length ids) 0 then (mkCountResult (Some 0%nat) None, redis)
  else
    let taskKeysToDelete := map task_key ids in
    match del_call with
    | RedisRejects m => (mkCountResult None (Some m), redis)
    | RedisOk =>
        let '(count, redis') := redis_del taskKeysToDelete redis in
        (mkCountResult (Some count) None, redis')
    end.

(** [updateTasks]'s input. *)
Record BulkUpdate := mkBulk {
  b_ids : list string; b_label : option task_label; b_status : option task_status;
  b_priority : option task_priority
}.

Record bulk_result := mkBulkResult { bulk_data : option (list Task); bulk_error : option string }.

(** The three [if]s of the [forEach] callback on one parsed task. *)
Definition bulk_apply (input : BulkUpdate) (task : Task) : bool * Task :=
  let '(c1, la) := match update_field (b_label input) (label task) with
                   | Some v => (true, v) | None => (false, label task) end in
  let '(c2, st) := match update_field (b_status input) (status task) with
                   | Some v => (true, v) | None => (false, status task) end in
  let '(c3, pr) := match update_field (b_priority input) (priority task) with
                   | Some v => (true, v) | None => (false, priority task) end in
  (c1 || c2 || c3,
   mkTask (id task) (code task) (title task) (estimatedHours task) st la pr
     (archived task) (createdAt task) (updatedAt task)).

(** The [forEach] over the [mget] answers, in key order: the tasks it
    returns, the [pipeline.set] calls it queues, [overallChangesMade]; or the
    exception [JSON.parse] throws. *)
Fixpoint bulk_loop (now : Z) (input : BulkUpdate) (answers : list (option redis_reply))
    (taskKeys : list string) : result (list Task * list (string * Task) * bool) :=
  match answers, taskKeys with
  | Some taskString :: ra, currentTaskKey :: rk =>
      bind_result (JSON_parse taskString) (fun task =>
        let '(taskSpecificChangesMade, updatedTask) := bulk_apply input task in
        bind_result (bulk_loop now input ra rk) (fun '(ts, pipe, ch) =>
          if taskSpecificChangesMade then
            let updatedTask := with_updatedAt (TDate (Some now)) updatedTask in
            Ok (updatedTask :: ts, (currentTaskKey, updatedTask) :: pipe, true)
          else Ok (task :: ts, pipe, ch)))
  | None :: ra, _ :: rk => bulk_loop now input ra rk
  | _, _ => Ok ([], [], false)
  end.

(** [pipeline.exec()]: the queued [set]s in order. *)
Definition pipeline_exec (pipe : list (string * Task)) (redis : redis_store) : redis_store :=
  fold_left (fun r '(k, t) => <[k := t]> r) pipe redis.

(** [updateTasks]; [now] is the time value of [new Date()] (the loop runs
    within one clock tick), [mget_call] and [exec_call] say how [redis.mget]
    and [pipeline.exec] settle. *)
Definition updateTasks (now : Z) (input : BulkUpdate) (mget_call exec_call : redis_call)
    (redis : redis_store) : bulk_result * redis_store :=
  let taskKeys := map task_key (b_ids input) in
  if Nat.eqb (length taskKeys) 0 then (mkBulkResult (Some []) None, redis)
  else
    match mget_call with
    | RedisRejects m => (mkBulkResult None (Some m), redis)
    | RedisOk =>
        let existingTaskStrings := map (fun k => redis_reply_of <$> redis !! k) taskKeys in
        match bulk_loop now input existingTaskStrings taskKeys with
        | Throw m => (mkBulkResult None (Some m), redis)
        | Ok (updatedTasks, pipeline, overallChangesMade) =>
            if overallChangesMade then
              match exec_call with
              | RedisRejects m => (mkBulkResult None (Some m), redis)
              | RedisOk => (mkBulkResult (Some updatedTasks) None, pipeline_exec pipeline redis)
              end
            else (mkBulkResult (Some updatedTasks) None, redis)
        end
    end.

(** An object of the array in [public/mock-tasks.json] with the fields
    [seedTasksToRedis] reads; [None] is a field that is absent. Ids are
    strings and titles present, as in the file. *)
Record RawTask := mkRaw {
  r_id : option string; r_code : option string; r_title : string;
  r_status : option task_status; r_label : option task_label;
  r_priority : option task_priority; r_estimatedHours : option Z;
  r_archived : option bool; r_createdAt : option string; r_updatedAt : option string
}.

(** What [fs.readFile] and [JSON.parse] give: a failure, whose message
    [getErrorMessage] returns, or the parsed value; an element of the array
    that is not an object (e.g. [null]) is [None]. *)
Inductive seed_file :=
| ReadFails (msg : string)
| NotArray
| ParsedArray (tasks : list (option RawTask)).

Record seed_result := mkSeed { seed_count : nat; seed_error : option string }.

(** [String.prototype.includes]. *)
Definition str_includes (sub s : string) : bool :=
  match String.index 0 sub s with Some _ => true | None => false end.

(** [taskToStore]; [new_Date s] is the time value of [new Date(s)] and
    [now] that of [new Date()]. *)
Definition seed_taskToStore (now : Z) (new_Date : string -> option Z) (i : string)
    (task : RawTask) : Task :=
  mkTask i
    (match r_code task with Some c => if truthy_string (Some c) then c else i | None => i end)
    (r_title task)
    (match r_estimatedHours task with Some h => h | None => 0 end)
    (match r_status task with Some s => s | None => Todo end)
    (match r_label task with Some l => l | None => Bug end)
    (match r_priority task with Some p => p | None => Low end)
    (match r_archived task with Some a => a | None => false end)
    (match r_createdAt task with
     | Some s => if truthy_string (Some s) then TDate (new_Date s) else TDate (Some now)
     | None => TDate (Some now) end)
    (match r_updatedAt task with
     | Some s => if truthy_string (Some s) then TDate (new_Date s) else TDate (Some now)
     | None => TDate (Some now) end).

(** The [for] loop: the [pipeline.set] calls and [validTasksProcessed]. *)
Fixpoint seed_loop (now : Z) (new_Date : string -> option Z) (tasks : list (option RawTask))
    : list (string * Task) * nat :=
  match tasks with
  | [] => ([], 0%nat)
  | Some task :: r =>
      let '(pipe, n) := seed_loop now new_Date r in
      match r_id task with
      | Some i => if truthy_string (Some i)
                  then ((task_key i, seed_taskToStore now new_Date i task) :: pipe, S n)
                  else (pipe, n)
      | None => (pipe, n)
      end
  | None :: r => seed_loop now new_Date r
  end.

(** The [catch] block of [seedTasksToRedis]. *)
Definition seed_catch (errorMessage : string) : seed_result :=
  if str_includes "ENOENT" errorMessage
  then mkSeed 0 (Some "mock-tasks.json not found.")
  else mkSeed 0 (Some errorMessage).

(** [seedTasksToRedis]; [exec_call] says how [pipeline.exec] settles. *)
Definition seedTasksToRedis (now : Z) (new_Date : string -> option Z) (file : seed_file)
    (exec_call : redis_call) (redis : redis_store) : seed_result * redis_store :=
  match file with
  | ReadFails errorMessage => (seed_catch errorMessage, redis)
  | NotArray => (mkSeed 0 (Some "Invalid format in mock-tasks.json."), redis)
  | ParsedArray tasks =>
      if Nat.eqb (length tasks) 0 then (mkSeed 0 None, redis)
      else
        let '(pipeline, validTasksProcessed) := seed_loop now new_Date tasks in
        if Nat.ltb 0 validTasksProcessed
        then match exec_call with
             | RedisRejects m => (seed_catch m, redis)
             | RedisOk => (mkSeed validTasksProcessed None, pipeline_exec pipeline redis)
             end
        else (mkSeed 0 (Some "No valid tasks in JSON to seed."), redis)
  end.

(** [getAllTasksFromKV] of part_003, the server side. [taskKeys] are the
    keys the [SCAN] loop collects, [scan_call] says whether a [scan] call of
    the loop rejects, [mget_call] how [redis.mget] settles. *)
Module KV.

Definition getAllTasksFromKV (scan_call mget_call : redis_call) (taskKeys : list string)
    (redis : redis_store) : kv_result :=
  match scan_call with
  | RedisRejects m => mkKv None (Some m)
  | RedisOk =>
      if Nat.eqb (length taskKeys) 0 then mkKv (Some []) None
      else
        match mget_call with
        | RedisRejects m => mkKv None (Some m)
        | RedisOk =>
            let taskJSONStrings := map (fun k => redis_reply_of <$> redis !! k) taskKeys in
            match map_result (fun json => match json with
                                          | Some v => bind_result (JSON_parse v) (fun t => Ok (Some t))
                                          | None => Ok None
                                          end) taskJSONStrings with
            | Ok tasks => mkKv (Some (omap (fun x => x) tasks)) None
            | Throw m => mkKv None (Some m)
            end
        end
  end.

End KV.



(** ** The first [TasksProvider] (task-store.tsx lines 20-128) *)

Module SimpleProvider.

Definition MAX_RETRIES : nat := 3.

(** [fetchAllTasksFromServer] (lines 29-79). *)
Definition fetchAllTasksFromServer (fetch : fetch_outcome) : M unit :=
  setIsLoadingAllTasks true;;
  setErrorLoadingAllTasks None;;
  try_finally
    (try_catch
      (result ← getAllTasksFromKV fetch;
       if truthy_string (kv_error result) then
         setErrorLoadingAllTasks (kv_error result);;
         offlineTasks ← db_toArray;
         if Nat.ltb 0 (length offlineTasks) then setAllTasks offlineTasks else setAllTasks []
       else
         match kv_data result with
         | Some d =>
             setAllTasks d;;
             db_clear;;
             db_bulkPut d
         | None => mret tt
         end)
      (fun error =>
         setErrorLoadingAllTasks (Some error);;
         try_catch load_offline_fallback (fun _dbError => setAllTasks [])))
    (setIsLoadingAllTasks false).

(** [loadInitialData] (lines 85-98): the delay of the retry timeout it
    schedules, if any. *)
Definition loadInitialData (retryCount : nat) (fetch : fetch_outcome) : M (option Z) :=
  try_catch
    (fetchAllTasksFromServer fetch;; mret None)
    (fun _error =>
       if Nat.ltb retryCount MAX_RETRIES
       then mret (Some (Z.min (1000 * 2 ^ Z.of_nat retryCount) 10000))
       else mret None).

End SimpleProvider.

(** [Promise.all([m1, m2])]: both operations start at once, in this order;
    the combined promise resolves with both values, rejects with the first
    rejection ([db_first] says which one settles first when both reject),
    and stays pending otherwise. *)
Definition promise_all2 {A B} (db_first : bool) (m1 : M A) (m2 : M B) : M (A * B) := fun st =>
  let '(o1, st1) := m1 st in
  let '(o2, st2) := m2 st1 in
  (match o1, o2 with
   | Returned a, Returned b => Returned (a, b)
   | Raised e1, Raised e2 => Raised (if db_first then e1 else e2)
   | Raised e, _ => Raised e
   | _, Raised e => Raised e
   | _, _ => Suspended
   end, st2).

(** ** [loadInitialData] of the worker-based [TasksProvider] (lines 317-340) *)

Module WorkerProvider.

(** [fetch1] and [w1] are what the call in the [try] block meets, [fetch2]
    and [w2] what the call in the [catch] block meets. *)
Definition loadInitialData (currentTasksSignature : js_value)
    (fetch1 fetch2 : fetch_outcome) (w1 w2 : option worker_reply) : M unit :=
  setIsLoadingAllTasks true;;
  try_catch
    (offlineTasks ← db_toArray;
     if Nat.ltb 0 (length offlineTasks) then
       setAllTasks offlineTasks;;
       fetchAllTasksFromServer currentTasksSignature fetch1 w1
     else fetchAllTasksFromServer currentTasksSignature fetch1 w1)
    (fun idbError =>
       setErrorLoadingAllTasks (Some idbError);;
       fetchAllTasksFromServer currentTasksSignature fetch2 w2).

End WorkerProvider.

(** ** [loadInitialData] of the debounced [TasksProvider] (lines 563-596) *)

Module DebouncedProvider.

Definition loadInitialData (db_first : bool) (fetch : fetch_outcome) : M unit :=
  setIsLoadingAllTasks true;;
  try_catch
    ('(offlineTasks, serverResult) ← promise_all2 db_first db_toArray (getAllTasksFromKV fetch);
     (if Nat.ltb 0 (length offlineTasks) then setAllTasks offlineTasks else mret tt);;
     if truthy_string (kv_error serverResult) then
       setErrorLoadingAllTasks (kv_error serverResult);;
       (if Nat.eqb (length offlineTasks) 0 then setAllTasks [] else mret tt)
     else
       match kv_data serverResult with
       | Some fetchedDataSafe =>
           setAllTasks fetchedDataSafe;;
           db_clear;;
           db_bulkPut fetchedDataSafe
       | None =>
           setAllTasks [];;
           db_clear
       end)
    (fun error =>
       setErrorLoadingAllTasks (Some error);;
       setAllTasks []).

End DebouncedProvider.



(** ** Priority counts and the estimated-hours range ([src/src/app/_lib/queries.ts]) *)

Record priority_counts := mkPCounts { c_low : nat; c_medium : nat; c_high : nat }.

Definition zero_pcounts : priority_counts := mkPCounts 0 0 0.

Definition pcount_of (c : priority_counts) (p : task_priority) : nat :=
  match p with Low => c_low c | Medium => c_medium c | High => c_high c end.

(** [counts[task.priority] = (counts[task.priority] || 0) + 1]. *)
Definition pbump (c : priority_counts) (p : task_priority) : priority_counts :=
  match p with
  | Low => mkPCounts (S (c_low c)) (c_medium c) (c_high c)
  | Medium => mkPCounts (c_low c) (S (c_medium c)) (c_high c)
  | High => mkPCounts (c_low c) (c_medium c) (S (c_high c))
  end.

(** First [getTaskPriorityCounts] (lines 50-74): a full scan. *)
Definition getTaskPriorityCounts_scan (tasks : list Task) (fails : bool) : priority_counts :=
  match db_read tasks fails with
  | Ok ts => fold_left (fun c t => pbump c (priority t)) ts zero_pcounts
  | Throw _ => zero_pcounts
  end.

(** [db.tasks.where("priority").equals(p).count()]. *)
Definition indexed_pcount (tasks : list Task) (p : task_priority) : nat :=
  length (filter (fun t => priority t = p) tasks).

(** Second [getTaskPriorityCounts] (lines 411-442). *)
Definition getTaskPriorityCounts_indexed (tasks : list Task) (fails : bool) : priority_counts :=
  match db_read tasks fails with
  | Ok ts =>
      let priorities := [Low; Medium; High] in
      let countsArray := map (indexed_pcount ts) priorities in
      fold_left (fun c '(p, n) =>
                   match p with
                   | Low => mkPCounts n (c_medium c) (c_high c)
                   | Medium => mkPCounts (c_low c) n (c_high c)
                   | High => mkPCounts (c_low c) (c_medium c) n
                   end)
        (zip priorities countsArray) zero_pcounts
  | Throw _ => zero_pcounts
  end.

Record hours_range := mkRange { r_min : Z; r_max : Z }.

(** [Math.min(...xs)] and [Math.max(...xs)] on a non-empty array. *)
Definition math_min (xs : list Z) : Z :=
  match xs with [] => 0 | x :: r => fold_left Z.min r x end.
Definition math_max (xs : list Z) : Z :=
  match xs with [] => 0 | x :: r => fold_left Z.max r x end.

(** First [getEstimatedHoursRange] (lines 76-93); [task.estimatedHours ?? 0]
    is the number itself, as the field is always a number. *)
Definition getEstimatedHoursRange_scan (tasks : list Task) (fails : bool) : hours_range :=
  match db_read tasks fails with
  | Ok ts =>
      if Nat.eqb (length ts) 0 then mkRange 0 0
      else
        let estimatedHours := map estimatedHours ts in
        mkRange (math_min estimatedHours) (math_max estimatedHours)
  | Throw _ => mkRange 0 0
  end.

(** [db.tasks.orderBy("estimatedHours")]: the records by the index, records
    with equal hours in primary-key order, i.e. a stable sort of the table. *)
Definition orderBy_estimatedHours (tasks : list Task) : list Task :=
  sort_by (fun a b => estimatedHours a <=? estimatedHours b) tasks.

(** Second [getEstimatedHoursRange] (lines 444-465). *)
Definition getEstimatedHoursRange_indexed (tasks : list Task) (fails : bool) : hours_range :=
  match db_read tasks fails with
  | Ok ts =>
      let recordCount := length ts in
      if Nat.eqb recordCount 0 then mkRange 0 0
      else
        let minTask := head (orderBy_estimatedHours ts) in
        let maxTask := last (orderBy_estimatedHours ts) in
        mkRange (match minTask with Some t => estimatedHours t | None => 0 end)
                (match maxTask with Some t => estimatedHours t | None => 0 end)
  | Throw _ => mkRange 0 0
  end.


(** ** Auxiliary definitions for the statements below *)

(** The ids [seedTasksToRedis] keeps: those of the entries that are objects
    with a truthy [id]. *)
Definition seed_ids (tasks : list (option RawTask)) : list string :=
  omap (fun o => o ≫= fun t => r_id t ≫= fun i => if truthy_string (Some i) then Some i else None)
    tasks.

(** [task_a] with status [Done]: same id, code, title, hours and timestamps. *)
Definition task_a_done : Task :=
  mkTask "TASK-0001" "TASK-0001" "Fix login redirect" 3 Done Bug High false
    (TDate (Some 1700000000000)) (TDate (Some 1700000360000)).

(** The response [processPendingTasks] posts for one pending request. *)
Definition pending_response (i : string) (tasks : list Task) : WorkerResponse :=
  match generateSignature tasks with
  | Ok signature => mkResp i (Some signature) None None
  | Throw m => mkResp i None (Some m) None
  end.

(** A timestamp that is present but that [new Date] cannot read: an invalid
    [Date], a [Date] past the time-value range, or a non-empty string that
    [Date.parse] rejects. *)
Definition unparseable (date_parse : string -> option Z) (v : tsval) : Prop :=
  match v with
  | TDate None => True
  | TDate (Some t) => maxTimeValue < Z.abs t
  | TStr s => s <> "" /\ date_parse s = None
  | TMissing => False
  end.

(** A [process] message sent at a time, with a request id and its tasks. *)
Definition process_msg (r : Z * string * list Task) : worker_event :=
  let '(n, i, ts) := r in WMsg n (mkMsg i ts "process").

(** The order of [orderBy("estimatedHours")]. *)
Definition hours_le (a b : Task) : Prop := (estimatedHours a <=? estimatedHours b) = true.

(** * Properties *)

(** ** Building blocks *)

Lemma emit_trace (e : effect) (st : store_state) : trace (emit e st) = trace st ++ [e].
Proof. reflexivity. Qed.

Ltac run_store :=
  cbv [fetchAllTasksFromServer try_finally try_catch setIsLoadingAllTasks
       setErrorLoadingAllTasks setAllTasks getAllTasksFromKV postMessage await_worker
       load_offline_fallback db_toArray db_clear db_bulkPut emit mbind mret M_bind M_ret];
  cbn -[String.eqb].

(** ** C1: order (in)dependence of [generateSignature] *)

(** C1 (code_bug): [generateSignature] serialises the tasks in the order it
    receives them; the same two tasks in the other order give a different
    signature. *)
Theorem generateSignature_order_dependent :
  generateSignature [task_a; task_b] <> generateSignature [task_b; task_a].
Proof. intro H. vm_compute in H. discriminate H. Qed.

(** ** C2: what the cycle compares *)

(** C2 (code_bug): the store posts the bare task array to the worker of
    part_001, which answers it with an error object (see
    [onmessage_bare_array]); the temporary listener resolves with that
    object, a fresh structured clone [JSObject r], and [!==] against the
    captured [currentTasksSignature] (the string [""] or ["[]"], or the
    object of an earlier answer) is true. So even when the server returns
    a collection content-equal to the working set, the cycle replaces
    [allTasks], clears the cache and writes the collection back. *)
Theorem fetchAll_writes_on_every_worker_answer (cur : js_value) (r : nat)
    (fetched : list Task) (st : store_state) :
  cur <> JSObject r -> db_fails st = [] ->
  (onmessage_bare_array (mkWorker [] [] false) fetched).2
    = mkErrorReply None "Unknown message type: undefined"
  /\ fetchAllTasksFromServer cur (FetchReturns (mkKv (Some fetched) None))
       (Some (WMessage (JSObject r))) st
     = (Returned tt,
        mkStore fetched false None (db_bulkPut_list fetched []) []
          (trace st ++ [ESetLoading true; ESetError None; EFetch; EPost fetched;
                        ESetAllTasks fetched; EDbClear; EDbBulkPut fetched; ESetLoading false])).
Proof.
  intros Hcur Hdb. split; [reflexivity|].
  assert (Hneq : strict_neq cur (JSObject r) = true).
  { destruct cur as [s|r']; [reflexivity|]. cbn.
    destruct (Nat.eqb_spec r' r) as [->|]; [contradiction|reflexivity]. }
  destruct st as [a l er db f tr]; cbn in Hdb; subst f.
  run_store. rewrite Hneq. cbn. rewrite <- !app_assoc; reflexivity.
Qed.

Lemma fetchAll_writes_on_every_worker_answer_witness :
  JSObject 0%nat <> JSObject 1%nat /\ db_fails store_with_a = [] /\
  ((onmessage_bare_array (mkWorker [] [] false) [task_a]).2
    = mkErrorReply None "Unknown message type: undefined"
  /\ fetchAllTasksFromServer (JSObject 0%nat) (FetchReturns (mkKv (Some [task_a]) None))
       (Some (WMessage (JSObject 1%nat))) store_with_a
     = (Returned tt,
        mkStore [task_a] false None (db_bulkPut_list [task_a] []) []
          (trace store_with_a ++ [ESetLoading true; ESetError None; EFetch; EPost [task_a];
                        ESetAllTasks [task_a]; EDbClear; EDbBulkPut [task_a]; ESetLoading false]))).
Proof.
  split; [discriminate|]. split; [reflexivity|].
  apply (fetchAll_writes_on_every_worker_answer (JSObject 0%nat) 1%nat [task_a] store_with_a);
    [discriminate | reflexivity].
Defined.

(** ** C6: worker failure *)

(** C6 (counterexample): the worker fails on freshly fetched data that
    differs from the working set; the cycle keeps the old working set. *)
Lemma fetchAll_worker_error_keeps_old_set :
  allTasks (fetchAllTasksFromServer (JSString "sig") (FetchReturns (mkKv (Some [task_b]) None))
              (Some (WError "worker crashed")) store_with_a).2 = [task_a]
  /\ [task_a] <> [task_b].
Proof. split; [reflexivity | discriminate]. Qed.

(** C6 (amended): when the worker's signature request for the fetched
    collection fails, the cycle only logs it: it completes with the loading
    flag cleared and no error surfaced, without setting [allTasks] and
    without touching the cache. *)
Theorem fetchAll_worker_error_is_logged_only (cur : js_value) (fetched : list Task)
    (err : option string) (msg : string) (st : store_state) :
  truthy_string err = false ->
  fetchAllTasksFromServer cur (FetchReturns (mkKv (Some fetched) err)) (Some (WError msg)) st
  = (Returned tt,
     mkStore (allTasks st) false None (db_tasks st) (db_fails st)
       (trace st ++ [ESetLoading true; ESetError None; EFetch; EPost fetched; ESetLoading false])).
Proof.
  intros Herr. run_store. rewrite Herr. cbn.
  rewrite <- !app_assoc; reflexivity.
Qed.

Lemma fetchAll_worker_error_is_logged_only_witness :
  truthy_string None = false /\
  fetchAllTasksFromServer (JSString "sig") (FetchReturns (mkKv (Some [task_b]) None)) (Some (WError "boom")) store_with_a
  = (Returned tt,
     mkStore [task_a] false None [task_a] []
       ([] ++ [ESetLoading true; ESetError None; EFetch; EPost [task_b]; ESetLoading false])).
Proof.
  split; [reflexivity|].
  apply (fetchAll_worker_error_is_logged_only (JSString "sig") [task_b] None "boom" store_with_a). reflexivity.
Defined.

(** ** C8: failing fetch with an empty cache *)

(** A fetch that rejects, or that resolves with a non-empty error message,
    on an empty cache whose next read succeeds: the call resolves with an
    empty working set and the error recorded. *)
Lemma fetchAll_failure_on_empty_cache (cur : js_value) (fetch : fetch_outcome)
    (w : option worker_reply) (st : store_state) :
  db_tasks st = [] -> hd false (db_fails st) = false ->
  (exists m, fetch = FetchRejects m) \/
  (exists d e, fetch = FetchReturns (mkKv d (Some e)) /\ e <> ""%string) ->
  exists e tr, fetchAllTasksFromServer cur fetch w st
               = (Returned tt, mkStore [] false (Some e) [] (tl (db_fails st)) tr).
Proof.
  destruct st as [a l er db [|b f] tr]; cbn; intros -> Hb [[m ->] | (d & e & -> & He)];
    try subst b.
  - exists m. eexists. reflexivity.
  - exists e. destruct e as [|c e']; [contradiction|]. eexists. reflexivity.
  - exists m. eexists. reflexivity.
  - exists e. destruct e as [|c e']; [contradiction|]. eexists. reflexivity.
Qed.

(** C8 (code_bug): the server action resolves [{ data: null, error: "" }]
    (an error whose message is empty) and the cache is empty: the call
    takes the empty-KV branch and [errorLoadingAllTasks] stays [null]. *)
Theorem fetchAll_empty_error_message_is_lost :
  errorLoadingAllTasks
    (fetchAllTasksFromServer (JSString "[]") (FetchReturns (mkKv None (Some ""))) (Some (WMessage (JSString "[]"))) store_empty).2
  = None.
Proof. reflexivity. Qed.

Lemma process_pending_responses (now : Z) (cache : list (string * cache_entry))
    (pending : list (string * list Task)) :
  (process_pending now cache pending).2 = map (fun '(i, ts) => pending_response i ts) pending.
Proof.
  revert cache. induction pending as [|[i ts] r IH]; intros cache; cbn; [reflexivity|].
  unfold pending_response at 1. destruct (generateSignature ts) as [s|m].
  - specialize (IH (cleanCache now (map_set (generateCacheKey ts) (mkEntry s now 1) cache))).
    destruct (process_pending _ _ r). cbn in *. rewrite IH. reflexivity.
  - specialize (IH cache). destruct (process_pending now cache r). cbn in *. rewrite IH. reflexivity.
Qed.

(** ** C3 and C7: what the signature reads *)

(** C3 (counterexample): two collections that differ only in the title of
    their single task have the same signature. *)
Lemma generateSignature_ignores_title :
  title task_a <> title task_a_retitled
  /\ task_a_retitled = mkTask (id task_a) (code task_a) "Fix logout redirect"
       (estimatedHours task_a) (status task_a) (label task_a) (priority task_a)
       (archived task_a) (createdAt task_a) (updatedAt task_a)
  /\ generateSignature [task_a] = generateSignature [task_a_retitled].
Proof. split; [discriminate | split; reflexivity]. Qed.

(** C7 (counterexample): a task whose updated-at is an invalid [Date] makes
    [generateSignature] throw, and the worker answers the request with an
    error instead of a signature. *)
Lemma generateSignature_fails_on_invalid_date :
  generateSignature [task_a; task_a_invalid_date] = Throw "Invalid time value"
  /\ (worker_run worker_init
        [WMsg 0 (mkMsg "req-1" [task_a; task_a_invalid_date] "process"); WTimer 50]).2
     = [mkResp "req-1" None (Some "Invalid time value") None].
Proof. split; vm_compute; reflexivity. Qed.

Lemma in_all_ascii c : In c all_ascii.
Proof.
  rewrite <- (ascii_nat_embedding c). apply in_map, in_seq.
  pose proof (nat_ascii_bounded c). lia.
Qed.

Lemma forall_ascii (P : ascii -> bool) : forallb P all_ascii = true -> forall c, P c = true.
Proof. intros H c. rewrite forallb_forall in H. apply H, in_all_ascii. Qed.

Lemma quote_char_head_check :
  forallb (fun c => match quote_char c with x :: _ => negb (Ascii.eqb x dquote) | [] => false end)
    all_ascii = true.
Proof. vm_compute. reflexivity. Qed.

Lemma quote_char_prefix_check :
  forallb (fun c => forallb (fun d => implb (text_prefixb (quote_char c) (quote_char d)) (Ascii.eqb c d))
     all_ascii) all_ascii = true.
Proof. vm_compute. reflexivity. Qed.

Lemma text_prefixb_app (a l : text) : text_prefixb a (a ++ l) = true.
Proof. induction a as [|x a IH]; cbn; [reflexivity|]. rewrite Ascii.eqb_refl. exact IH. Qed.

Lemma quote_char_head (c : ascii) : exists x y, quote_char c = x :: y /\ x <> dquote.
Proof.
  pose proof (forall_ascii _ quote_char_head_check c) as H. cbn beta in H.
  destruct (quote_char c) as [|x y]; [discriminate|]. exists x, y. split; [reflexivity|].
  intros ->. rewrite Ascii.eqb_refl in H. discriminate.
Qed.

Lemma quote_char_prefix (c d : ascii) (l : text) : quote_char d = quote_char c ++ l -> c = d.
Proof.
  intros H. pose proof (forall_ascii _ quote_char_prefix_check c) as Hc. cbn beta in Hc.
  pose proof (forall_ascii _ Hc d) as Hcd. cbn beta in Hcd.
  rewrite H, text_prefixb_app in Hcd. cbn in Hcd. apply Ascii.eqb_eq. exact Hcd.
Qed.

Lemma quote_char_cancel (c d : ascii) (x y : text) :
  quote_char c ++ x = quote_char d ++ y -> c = d /\ x = y.
Proof.
  intros H. apply app_eq_app in H as (l & [[H1 H2] | [H1 H2]]).
  - pose proof (quote_char_prefix d c l H1) as <-. split; [reflexivity|].
    assert (l = []) as -> by (apply (app_inv_head (quote_char d)); rewrite app_nil_r; auto).
    symmetry. exact H2.
  - pose proof (quote_char_prefix c d l H1) as <-. split; [reflexivity|].
    assert (l = []) as -> by (apply (app_inv_head (quote_char c)); rewrite app_nil_r; auto).
    exact H2.
Qed.

Lemma quote_body_cancel (a b : string) (r r' : text) :
  quote_body a ++ dquote :: r = quote_body b ++ dquote :: r' -> a = b /\ r = r'.
Proof.
  revert b. induction a as [|c a IH]; intros [|d b]; cbn; intros H.
  - injection H as ->. auto.
  - destruct (quote_char_head d) as (x & y & Hd & Hx). rewrite Hd in H.
    injection H as <- _. contradiction.
  - destruct (quote_char_head c) as (x & y & Hc & Hx). rewrite Hc in H.
    injection H as -> _. contradiction.
  - rewrite <- !app_assoc in H. apply quote_char_cancel in H as [<- H].
    apply IH in H as [<- ->]. auto.
Qed.

Lemma minimal_json_text (i s p : string) (u : option string) (rest : text) :
  stringify (JObj [("id", Some (JStr i)); ("status", Some (JStr s));
                   ("priority", Some (JStr p)); ("updatedAt", option_map JStr u)]) ++ rest
  = min_text i s p u rest.
Proof.
  destruct u; cbn; unfold min_text, field_text, quote_json_string; cbn;
    repeat (rewrite <- !app_assoc; cbn); reflexivity.
Qed.

Lemma field_text_cancel (k v v' : string) (r r' : text) :
  field_text k v r = field_text k v' r' -> v = v' /\ r = r'.
Proof.
  unfold field_text. intros H. injection H as H. apply app_inv_head in H.
  injection H as H. apply quote_body_cancel in H. exact H.
Qed.

Lemma cons_tail_eq {A} (x y : A) (l l' : list A) : x :: l = y :: l' -> l = l'.
Proof. intros H. injection H as _ H. exact H. Qed.

Lemma min_text_cancel i s p u r i' s' p' u' r' :
  min_text i s p u r = min_text i' s' p' u' r' ->
  i = i' /\ s = s' /\ p = p' /\ u = u' /\ r = r'.
Proof.
  unfold min_text. intros H. apply cons_tail_eq in H.
  apply field_text_cancel in H as [<- H]. apply cons_tail_eq in H.
  apply field_text_cancel in H as [<- H]. apply cons_tail_eq in H.
  apply field_text_cancel in H as [<- H].
  destruct u as [v|], u' as [v'|].
  - apply cons_tail_eq, field_text_cancel in H as [<- H]. injection H as ->. auto.
  - unfold field_text in H. discriminate H.
  - unfold field_text in H. discriminate H.
  - injection H as ->. auto.
Qed.

Lemma join_mid (sep : text) (A B : list text) :
  exists J1 J2, forall x, join sep (A ++ x :: B) = J1 ++ x ++ J2.
Proof.
  induction A as [|a A IH].
  - exists [], (match B with [] => [] | _ => sep ++ join sep B end).
    intros x. destruct B; cbn; rewrite ?app_nil_r; reflexivity.
  - destruct IH as (J1 & J2 & IH). exists (a ++ sep ++ J1), J2. intros x.
    cbn. destruct (A ++ x :: B) eqn:E; [destruct A; discriminate|].
    rewrite <- E, IH, <- !app_assoc. reflexivity.
Qed.

Lemma chunks_mid (g : Task -> text) (n : nat) (pre post : list Task) :
  (length pre + S (length post) <= n)%nat ->
  exists X Y, forall x,
    List.concat (map (chunk_text g) (chunks_from n (pre ++ x :: post))) = X ++ g x ++ Y.
Proof.
  revert pre. induction n as [|n IH]; intros pre Hn; [lia|].
  destruct (Nat.lt_ge_cases (length pre) CHUNK_SIZE) as [Hlt | Hge].
  - set (post1 := firstn (CHUNK_SIZE - S (length pre)) post).
    set (rest := skipn (CHUNK_SIZE - S (length pre)) post).
    destruct (join_mid [","%char] (map g pre) (map g post1)) as (J1 & J2 & HJ).
    exists ("["%char :: J1), (J2 ++ "]"%char :: List.concat (map (chunk_text g) (chunks_from n rest))).
    intros x. cbn [chunks_from]. destruct (pre ++ x :: post) as [|y l] eqn:E;
      [destruct pre; discriminate|]. rewrite <- E.
    assert (Hf : firstn CHUNK_SIZE (pre ++ x :: post) = pre ++ x :: post1).
    { rewrite firstn_app, firstn_all2 by lia. f_equal.
      replace (CHUNK_SIZE - length pre)%nat with (S (CHUNK_SIZE - S (length pre))) by lia.
      reflexivity. }
    assert (Hs : skipn CHUNK_SIZE (pre ++ x :: post) = rest).
    { rewrite skipn_app, skipn_all2 by lia. cbn [app].
      replace (CHUNK_SIZE - length pre)%nat with (S (CHUNK_SIZE - S (length pre))) by lia.
      reflexivity. }
    rewrite Hf, Hs. cbn [map List.concat]. unfold chunk_text at 1.
    rewrite map_app. cbn [map]. rewrite HJ. cbn. rewrite <- !app_assoc. reflexivity.
  - destruct (IH (skipn CHUNK_SIZE pre)) as (X & Y & HXY).
    { rewrite length_skipn. unfold CHUNK_SIZE in *. lia. }
    exists (chunk_text g (firstn CHUNK_SIZE pre) ++ X), Y. intros x.
    cbn [chunks_from]. destruct (pre ++ x :: post) as [|y l] eqn:E;
      [destruct pre; discriminate|]. rewrite <- E.
    rewrite firstn_app, (proj2 (Nat.sub_0_le _ _) Hge), app_nil_r.
    rewrite skipn_app, (proj2 (Nat.sub_0_le _ _) Hge). cbn [skipn].
    cbn [map List.concat]. rewrite HXY, app_assoc. reflexivity.
Qed.

Lemma serialises_ok (t : Task) : serialises t = true -> exists j, minimal_task t = Ok j.
Proof. unfold serialises. destruct (minimal_task t); [eauto | discriminate]. Qed.

Lemma chunk_signature_ok (c : list Task) :
  forallb serialises c = true -> chunk_signature c = Ok (chunk_text task_text c).
Proof.
  intros H. unfold chunk_signature, chunk_text.
  assert (Hm : exists objs, map_result minimal_task c = Ok objs /\ map stringify objs = map task_text c).
  { induction c as [|t c IH]; cbn in H |- *; [eauto|].
    apply andb_prop in H as [Ht Hc]. destruct (serialises_ok t Ht) as [j Hj].
    destruct (IH Hc) as (objs & Ho & Hs). rewrite Hj, Ho. cbn. exists (j :: objs).
    split; [reflexivity|]. cbn. rewrite Hs. unfold task_text. rewrite Hj. reflexivity. }
  destruct Hm as (objs & -> & Hs). cbn. rewrite Hs. reflexivity.
Qed.

Lemma chunks_from_forallb {A} (P : A -> bool) (n : nat) (l : list A) :
  forallb P l = true -> forallb (forallb P) (chunks_from n l) = true.
Proof.
  revert l. induction n as [|n IH]; intros l H; [reflexivity|].
  destruct l as [|x r]; [reflexivity|]. cbn [chunks_from].
  assert (H' := H). rewrite <- (firstn_skipn CHUNK_SIZE (x :: r)), forallb_app in H'.
  apply andb_prop in H' as [H1 H2].
  cbn [forallb]. rewrite H1. exact (IH _ H2).
Qed.

Lemma generateSignature_ok (l : list Task) :
  forallb serialises l = true ->
  generateSignature l = Ok (List.concat (map (chunk_text task_text) (chunks_from (length l) l))).
Proof.
  intros H. unfold generateSignature.
  pose proof (chunks_from_forallb serialises (length l) l H) as Hc.
  induction (chunks_from (length l) l) as [|c cs IH]; [reflexivity|].
  cbn in Hc |- *. apply andb_prop in Hc as [H1 H2].
  rewrite (chunk_signature_ok c H1). cbn.
  destruct (map_result chunk_signature cs) as [parts|m]; cbn in IH |- *;
    [injection (IH H2) as <-; reflexivity | discriminate (IH H2)].
Qed.

Lemma task_text_min (t : Task) (rest : text) :
  serialises t = true ->
  task_text t ++ rest = min_text (id t) (status_string (status t)) (priority_string (priority t))
                          (updated_text t) rest
  /\ updatedAt_value (updatedAt t) = Ok (option_map JStr (updated_text t)).
Proof.
  unfold serialises, task_text, minimal_task, updated_text.
  assert (Hshape : forall r, updatedAt_value (updatedAt t) = r ->
            match r with Ok (Some (JStr _)) | Ok None | Throw _ => True | _ => False end).
  { intros r <-. destruct (updatedAt t) as [tv|s|]; cbn; auto.
    destruct (toISOString tv); cbn; auto. }
  specialize (Hshape _ eq_refl).
  destruct (updatedAt_value (updatedAt t)) as [[[s| |]|]|m]; cbn; try contradiction;
    try discriminate; intros _; split; try reflexivity.
  - apply (minimal_json_text _ _ _ (Some s)).
  - apply (minimal_json_text _ _ _ None).
Qed.

Lemma status_string_inj (s s' : task_status) : status_string s = status_string s' -> s = s'.
Proof. destruct s, s'; cbn; congruence. Qed.

Lemma priority_string_inj (p p' : task_priority) : priority_string p = priority_string p' -> p = p'.
Proof. destruct p, p'; cbn; congruence. Qed.

(** C3 (amended): when every task's record serialises (no updated-at is an
    invalid [Date]), replacing one task by another leaves the signature
    unchanged exactly when the two agree on id, status, priority and the
    serialised updated-at; code, title, label, estimated hours, archived and
    created-at do not enter the signature. *)
Theorem generateSignature_sees_id_status_priority_updatedAt (pre post : list Task) (t t' : Task) :
  forallb serialises (pre ++ t :: t' :: post) = true ->
  generateSignature (pre ++ t :: post) = generateSignature (pre ++ t' :: post)
  <-> id t = id t' /\ status t = status t' /\ priority t = priority t'
      /\ updatedAt_value (updatedAt t) = updatedAt_value (updatedAt t').
Proof.
  intros H. rewrite forallb_app in H. apply andb_prop in H as [Hpre H].
  cbn in H. apply andb_prop in H as [Ht H]. apply andb_prop in H as [Ht' Hpost].
  assert (Hl : forall x, serialises x = true -> forallb serialises (pre ++ x :: post) = true).
  { intros x Hx. rewrite forallb_app, Hpre. cbn. rewrite Hx, Hpost. reflexivity. }
  assert (Hlen : forall x, length (pre ++ x :: post) = (length pre + S (length post))%nat).
  { intros x. rewrite length_app. reflexivity. }
  rewrite (generateSignature_ok _ (Hl t Ht)), (generateSignature_ok _ (Hl t' Ht')), !Hlen.
  destruct (chunks_mid task_text (length pre + S (length post)) pre post (le_n _)) as (X & Y & HXY).
  rewrite !HXY.
  destruct (task_text_min t Y Ht) as [Htt Hut], (task_text_min t' Y Ht') as [Htt' Hut'].
  split.
  - intros E. injection E as E. apply app_inv_head in E. rewrite Htt, Htt' in E.
    apply min_text_cancel in E as (Hi & Hs & Hp & Hu & _).
    rewrite Hut, Hut', Hu. apply status_string_inj in Hs. apply priority_string_inj in Hp. auto.
  - intros (Hi & Hs & Hp & Hu). rewrite Hut, Hut' in Hu.
    assert (Hu' : updated_text t = updated_text t').
    { destruct (updated_text t), (updated_text t'); cbn in Hu; congruence. }
    assert (E : task_text t ++ Y = task_text t' ++ Y) by (rewrite Htt, Htt', Hi, Hs, Hp, Hu'; reflexivity).
    rewrite E. reflexivity.
Qed.

Lemma generateSignature_sees_id_status_priority_updatedAt_witness :
  forallb serialises ([task_b] ++ task_a :: task_a_retitled :: []) = true
  /\ (generateSignature ([task_b] ++ task_a :: []) = generateSignature ([task_b] ++ task_a_retitled :: [])
      <-> id task_a = id task_a_retitled /\ status task_a = status task_a_retitled
          /\ priority task_a = priority task_a_retitled
          /\ updatedAt_value (updatedAt task_a) = updatedAt_value (updatedAt task_a_retitled)).
Proof.
  split; [vm_compute; reflexivity|].
  apply (generateSignature_sees_id_status_priority_updatedAt [task_b] [] task_a task_a_retitled).
  vm_compute. reflexivity.
Defined.

Lemma map_result_throw {A B} (f : A -> result B) (x : A) (l : list A) (m : string) :
  In x l -> f x = Throw m -> exists m', map_result f l = Throw m'.
Proof.
  intros Hin Hx. induction l as [|a r IH]; [destruct Hin|].
  destruct Hin as [<- | Hin]; cbn.
  - rewrite Hx. eauto.
  - destruct (f a) as [y|m'']; cbn; [|eauto].
    destruct (IH Hin) as [m' ->]. cbn. eauto.
Qed.

Lemma chunks_from_concat {A} (fuel : nat) (l : list A) :
  (length l <= fuel)%nat -> List.concat (chunks_from fuel l) = l.
Proof.
  revert l; induction fuel as [|f IH]; intros l Hl.
  - destruct l; [reflexivity | cbn in Hl; lia].
  - destruct l as [|x r]; [reflexivity|].
    cbn [chunks_from List.concat]. rewrite IH.
    + apply firstn_skipn.
    + rewrite length_skipn. cbn in Hl |- *. unfold CHUNK_SIZE. lia.
Qed.

Lemma in_chunk (t : Task) (l : list Task) :
  In t l -> exists c, In c (chunks_from (length l) l) /\ In t c.
Proof.
  intros Hin. apply in_concat. rewrite chunks_from_concat; [exact Hin | lia].
Qed.

Lemma generateSignature_throws (l : list Task) (t : Task) (m : string) :
  In t l -> minimal_task t = Throw m -> exists m', generateSignature l = Throw m'.
Proof.
  intros Hin Ht. destruct (in_chunk t l Hin) as (c & Hc & Htc).
  assert (Hcs : exists m', chunk_signature c = Throw m').
  { unfold chunk_signature. destruct (map_result_throw _ _ _ _ Htc Ht) as [m' ->]. eauto. }
  destruct Hcs as [m' Hcs].
  unfold generateSignature. destruct (map_result_throw _ _ _ _ Hc Hcs) as [m'' ->]. eauto.
Qed.

Lemma normalize_field_unparseable (date_parse : string -> option Z) (v : tsval) :
  unparseable date_parse v ->
  (if truthy_tsval v then date_getTime date_parse v else JNum 0) = JNaN.
Proof.
  destruct v as [[x|]|s|]; cbn; intros H; try contradiction; try reflexivity.
  - apply Z.leb_gt in H. rewrite H. reflexivity.
  - destruct H as [Hs Hp]. apply String.eqb_neq in Hs. rewrite Hs, Hp. reflexivity.
Qed.

(** C7 (amended): only the main-thread normaliser maps a timestamp to 0, and
    only a missing or empty one; a present timestamp that [new Date] cannot
    read becomes NaN, not 0, whatever [Date.parse] accepts. The worker's
    [generateSignature] does no normalisation: one task whose updated-at is
    an invalid [Date] makes the whole computation throw, and when the
    debounce timer runs [processPendingTasks] over a pending request with
    such a task, that request is answered with the error. *)
Theorem timestamps_normalised_only_on_main_thread (date_parse : string -> option Z)
    (t : Task) (pre post : list Task) (ws : worker_state) (now : Z) (i : string) :
  (truthy_tsval (createdAt t) = false -> n_createdAt (normalize_task date_parse t) = JNum 0)
  /\ (truthy_tsval (updatedAt t) = false -> n_updatedAt (normalize_task date_parse t) = JNum 0)
  /\ (unparseable date_parse (createdAt t) -> n_createdAt (normalize_task date_parse t) = JNaN)
  /\ (unparseable date_parse (updatedAt t) -> n_updatedAt (normalize_task date_parse t) = JNaN)
  /\ (updatedAt t = TDate None ->
      exists m, generateSignature (pre ++ t :: post) = Throw m
        /\ (debounceArmed ws = true -> In (i, pre ++ t :: post) (pendingTasks ws) ->
            In (mkResp i None (Some m) None) (worker_step ws (WTimer now)).2)).
Proof.
  split; [|split; [|split; [|split]]].
  - intros H. unfold normalize_task. cbn. rewrite H. reflexivity.
  - intros H. unfold normalize_task. cbn. rewrite H. reflexivity.
  - intros H. unfold normalize_task. cbn. apply normalize_field_unparseable, H.
  - intros H. unfold normalize_task. cbn. apply normalize_field_unparseable, H.
  - intros H. destruct (generateSignature_throws (pre ++ t :: post) t "Invalid time value")
      as [m Hm].
    + apply in_or_app. right. left. reflexivity.
    + unfold minimal_task. rewrite H. reflexivity.
    + exists m. split; [exact Hm|]. intros Harmed Hin. cbn. rewrite Harmed.
      pose proof (process_pending_responses now (taskCache ws) (pendingTasks ws)) as Hp.
      destruct (process_pending now (taskCache ws) (pendingTasks ws)) as [c out].
      cbn in Hp |- *. rewrite Hp. apply in_map_iff. exists (i, pre ++ t :: post).
      split; [|exact Hin]. unfold pending_response. rewrite Hm. reflexivity.
Qed.

Lemma timestamps_normalised_only_on_main_thread_witness :
  n_createdAt (normalize_task (fun s => parse_iso (los s))
                 (mkTask "T-1" "T-1" "x" 0 Todo Bug Low false TMissing (TStr ""))) = JNum 0
  /\ n_updatedAt (normalize_task (fun s => parse_iso (los s))
                   (mkTask "T-1" "T-1" "x" 0 Todo Bug Low false TMissing (TStr ""))) = JNum 0
  /\ n_createdAt (normalize_task (fun s => parse_iso (los s))
                   (mkTask "T-2" "T-2" "x" 0 Todo Bug Low false (TStr "yesterday") (TDate None)))
     = JNaN
  /\ n_updatedAt (normalize_task (fun s => parse_iso (los s))
                   (mkTask "T-2" "T-2" "x" 0 Todo Bug Low false (TStr "yesterday") (TDate None)))
     = JNaN
  /\ exists m, generateSignature ([task_a] ++ [mkTask "T-2" "T-2" "x" 0 Todo Bug Low false
                                                (TStr "yesterday") (TDate None)]) = Throw m
     /\ In (mkResp "req-1" None (Some m) None)
          (worker_step (mkWorker [] [("req-1", [task_a] ++ [mkTask "T-2" "T-2" "x" 0 Todo Bug Low
                                      false (TStr "yesterday") (TDate None)])] true) (WTimer 50)).2.
Proof.
  destruct (timestamps_normalised_only_on_main_thread (fun s => parse_iso (los s))
              (mkTask "T-1" "T-1" "x" 0 Todo Bug Low false TMissing (TStr "")) [task_a] []
              worker_init 50 "req-1") as (H1 & H2 & _).
  destruct (timestamps_normalised_only_on_main_thread (fun s => parse_iso (los s))
              (mkTask "T-2" "T-2" "x" 0 Todo Bug Low false (TStr "yesterday") (TDate None))
              [task_a] []
              (mkWorker [] [("req-1", [task_a] ++ [mkTask "T-2" "T-2" "x" 0 Todo Bug Low
                                       false (TStr "yesterday") (TDate None)])] true)
              50 "req-1") as (_ & _ & H3 & H4 & H5).
  split; [apply H1; reflexivity|]. split; [apply H2; reflexivity|].
  split; [apply H3; cbn; split; [discriminate | reflexivity]|].
  split; [apply H4; cbn; exact I|].
  destruct (H5 eq_refl) as [m [Hm Hw]]. exists m. split; [exact Hm|].
  apply Hw; [reflexivity | left; reflexivity].
Defined.

(** ** C9: [updateTask] and updated-at *)

(** C9 (code bug): with the client of part_005, which hands back the
    answer of [redis.get] already parsed, [updateTask] never updates an
    existing task. [JSON.parse] throws on the object, the action answers with
    an error, and the stored task, updated-at included, stays as it was.
    Every way the Redis calls settle ends so. *)
Theorem updateTask_never_updates_existing (now : Z) (i : string) (u : UpdateTaskSchema)
    (get_call set_call : redis_call) (redis : redis_store) (existing : Task) :
  redis !! task_key i = Some existing ->
  exists m, updateTask now i u get_call set_call redis = (mkAction None (Some m), redis)
    /\ (get_call = RedisOk -> m = json_parse_object_error).
Proof.
  intros Hfound. unfold updateTask. destruct get_call as [|m].
  - rewrite Hfound. exists json_parse_object_error. split; reflexivity.
  - exists m. split; [reflexivity | discriminate].
Qed.

Lemma updateTask_never_updates_existing_witness :
  redis_with_a !! task_key "TASK-0001" = Some task_a
  /\ exists m, updateTask 1700000999000 "TASK-0001" (retitle no_update "Fix logout redirect")
                 RedisOk RedisOk redis_with_a = (mkAction None (Some m), redis_with_a)
               /\ (RedisOk = RedisOk -> m = json_parse_object_error).
Proof.
  split; [reflexivity|].
  apply (updateTask_never_updates_existing 1700000999000 "TASK-0001"
           (retitle no_update "Fix logout redirect") RedisOk RedisOk redis_with_a task_a).
  reflexivity.
Defined.

(** ** C10: the two [getTaskStatusCounts] *)

Lemma fold_bump_counts (l : list Task) (c : status_counts) :
  fold_left (fun c t => bump c (status t)) l c
  = mkCounts (c_todo c + indexed_count l Todo) (c_in_progress c + indexed_count l InProgress)
      (c_done c + indexed_count l Done) (c_canceled c + indexed_count l Canceled).
Proof.
  revert c; induction l as [|t l IH]; intros c; cbn.
  - destruct c; cbn. f_equal; lia.
  - rewrite IH. unfold indexed_count. cbn.
    destruct (status t); repeat case_decide; try congruence; cbn; f_equal; apply plus_n_Sm.
Qed.

(** C10: the full-scan and the indexed [getTaskStatusCounts] return the same
    record, and on a readable table each count is the number of stored tasks
    with that status. *)
Theorem getTaskStatusCounts_scan_indexed_agree (tasks : list Task) (fails : bool) :
  getTaskStatusCounts_scan tasks fails = getTaskStatusCounts_indexed tasks fails
  /\ (forall s, count_of (getTaskStatusCounts_scan tasks false) s
                = length (filter (fun t => status t = s) tasks)).
Proof.
  split.
  - unfold getTaskStatusCounts_scan, getTaskStatusCounts_indexed.
    destruct fails; [reflexivity|]. cbn. rewrite fold_bump_counts. reflexivity.
  - intros s. unfold getTaskStatusCounts_scan. cbn. rewrite fold_bump_counts.
    destruct s; reflexivity.
Qed.

(** ** C4: overlapping calls *)

Lemma count_effects_app (p : effect -> bool) (l1 l2 : list effect) :
  count_effects p (l1 ++ l2) = (count_effects p l1 + count_effects p l2)%nat.
Proof. induction l1 as [|e l1 IH]; cbn; [reflexivity|]. rewrite IH. apply Nat.add_assoc. Qed.

Lemma count_effects_interleaving (p : effect -> bool) (l1 l2 l : list effect) :
  interleaving l1 l2 l -> count_effects p l = (count_effects p l1 + count_effects p l2)%nat.
Proof.
  induction 1 as [|x l1 l2 l _ IH|x l1 l2 l _ IH]; cbn; [reflexivity | |];
    rewrite IH; lia.
Qed.

Lemma fetches_emit_prim {A} (m : M A) (e : effect) :
  (forall st, trace (m st).2 = trace st ++ [e]) -> is_fetch e = false -> fetches 0 m.
Proof. intros Hm He st. exists [e]. rewrite Hm. cbn. rewrite He. auto. Qed.

Lemma fetches_ret {A} (a : A) : fetches 0 (mret a).
Proof. intros st. exists []. rewrite app_nil_r. auto. Qed.

Lemma fetches_setIsLoadingAllTasks b : fetches 0 (setIsLoadingAllTasks b).
Proof. apply (fetches_emit_prim _ (ESetLoading b)); reflexivity. Qed.

Lemma fetches_setErrorLoadingAllTasks e : fetches 0 (setErrorLoadingAllTasks e).
Proof. apply (fetches_emit_prim _ (ESetError e)); reflexivity. Qed.

Lemma fetches_setAllTasks ts : fetches 0 (setAllTasks ts).
Proof. apply (fetches_emit_prim _ (ESetAllTasks ts)); reflexivity. Qed.

Lemma fetches_postMessage ts : fetches 0 (postMessage ts).
Proof. apply (fetches_emit_prim _ (EPost ts)); reflexivity. Qed.

Lemma fetches_db_toArray : fetches 0 db_toArray.
Proof.
  apply (fetches_emit_prim _ EDbToArray); [|reflexivity].
  intros [a l er db [|[] f] tr]; reflexivity.
Qed.

Lemma fetches_db_clear : fetches 0 db_clear.
Proof.
  apply (fetches_emit_prim _ EDbClear); [|reflexivity].
  intros [a l er db [|[] f] tr]; reflexivity.
Qed.

Lemma fetches_db_bulkPut ts : fetches 0 (db_bulkPut ts).
Proof.
  apply (fetches_emit_prim _ (EDbBulkPut ts)); [|reflexivity].
  intros [a l er db [|[] f] tr]; reflexivity.
Qed.

Lemma fetches_await_worker w : fetches 0 (await_worker w).
Proof. intros st. exists []. rewrite app_nil_r. destruct w; auto. Qed.

Lemma fetches_getAllTasksFromKV o : fetches 1 (getAllTasksFromKV o).
Proof. intros st. exists [EFetch]. destruct o; auto. Qed.

(** A continuation runs only when the first computation returns. *)
Lemma fetches_bind {A B} (n : nat) (m : M A) (f : A -> M B) :
  fetches n m -> (forall a, fetches 0 (f a)) -> fetches n (m ≫= f).
Proof.
  intros Hm Hf st. cbv [mbind M_bind]. destruct (Hm st) as (new & Ht & Hc).
  destruct (m st) as [[a|e|] st'] eqn:E; cbn in Ht |- *; eauto.
  destruct (Hf a st') as (new' & Ht' & Hc'). exists (new ++ new').
  rewrite Ht', Ht, count_effects_app, Hc, Hc', app_assoc. split; [reflexivity | lia].
Qed.

(** The two state setters at the head of the call always return. *)
Lemma fetches_seq_setter {B} (n : nat) (m : M unit) (f : M B) :
  (forall st, (m st).1 = Returned tt) -> fetches 0 m -> fetches n f -> fetches n (m ;; f).
Proof.
  intros Hr Hm Hf st. cbv [mbind M_bind]. destruct (Hm st) as (new & Ht & Hc).
  specialize (Hr st). destruct (m st) as [o st'] eqn:E; cbn in Hr, Ht; subst o.
  destruct (Hf st') as (new' & Ht' & Hc'). exists (new ++ new').
  rewrite Ht', Ht, count_effects_app, Hc, Hc', app_assoc. split; reflexivity.
Qed.

Lemma fetches_try_catch {A} (n : nat) (m : M A) (h : string -> M A) :
  fetches n m -> (forall e, fetches 0 (h e)) -> fetches n (try_catch m h).
Proof.
  intros Hm Hh st. unfold try_catch. destruct (Hm st) as (new & Ht & Hc).
  destruct (m st) as [[a|e|] st'] eqn:E; cbn in Ht |- *; eauto.
  destruct (Hh e st') as (new' & Ht' & Hc'). exists (new ++ new').
  rewrite Ht', Ht, count_effects_app, Hc, Hc', app_assoc. split; [reflexivity | lia].
Qed.

Lemma fetches_try_finally {A} (n : nat) (m : M A) (f : M unit) :
  fetches n m -> fetches 0 f -> fetches n (try_finally m f).
Proof.
  intros Hm Hf st. unfold try_finally. destruct (Hm st) as (new & Ht & Hc).
  destruct (m st) as [o st'] eqn:E; cbn in Ht.
  assert (Hfin : exists new', trace (f st').2 = trace st' ++ new' /\ count_effects is_fetch new' = 0%nat)
    by apply Hf.
  destruct Hfin as (new' & Ht' & Hc').
  destruct o as [a|e|]; [| |cbn; eauto];
    (destruct (f st') as [[u|e'|] st''] eqn:F; cbn in Ht' |- *;
     exists (new ++ new'); rewrite Ht', Ht, count_effects_app, Hc, Hc', app_assoc;
     (split; [reflexivity | lia])).
Qed.

Lemma fetches_load_offline_fallback : fetches 0 load_offline_fallback.
Proof.
  unfold load_offline_fallback. apply fetches_bind; [apply fetches_db_toArray|].
  intros ts. destruct (Nat.ltb 0 (length ts)); apply fetches_setAllTasks.
Qed.

Lemma fetchAllTasksFromServer_fetches_once (cur : js_value) (fetch : fetch_outcome)
    (w : option worker_reply) : fetches 1 (fetchAllTasksFromServer cur fetch w).
Proof.
  unfold fetchAllTasksFromServer.
  apply fetches_seq_setter; [reflexivity | apply fetches_setIsLoadingAllTasks|].
  apply fetches_seq_setter; [reflexivity | apply fetches_setErrorLoadingAllTasks|].
  apply fetches_try_finally; [|apply fetches_setIsLoadingAllTasks].
  apply fetches_try_catch.
  - apply fetches_bind; [apply fetches_getAllTasksFromKV|]. intros r.
    destruct (truthy_string (kv_error r)).
    + apply fetches_bind; [apply fetches_setErrorLoadingAllTasks|].
      intros _. apply fetches_load_offline_fallback.
    + destruct (kv_data r) as [d|]; [destruct w as [wr|]|].
      * apply fetches_try_catch; [|intros; apply fetches_ret].
        apply fetches_bind; [apply fetches_postMessage|]. intros _.
        apply fetches_bind; [apply fetches_await_worker|]. intros sig.
        destruct (strict_neq cur sig); [|apply fetches_ret].
        apply fetches_bind; [apply fetches_setAllTasks|]. intros _.
        apply fetches_bind; [apply fetches_db_clear|]. intros _.
        apply fetches_db_bulkPut.
      * apply fetches_ret.
      * destruct (strict_neq cur (JSString "[]")); [|apply fetches_ret].
        apply fetches_bind; [apply fetches_setAllTasks|]. intros _. apply fetches_db_clear.
  - intros e. apply fetches_bind; [apply fetches_setErrorLoadingAllTasks|].
    intros _. apply fetches_load_offline_fallback.
Qed.

Lemma call_effects_fetch_once (cur : js_value) (fetch : fetch_outcome)
    (w : option worker_reply) (st : store_state) :
  count_effects is_fetch (call_effects cur fetch w st) = 1%nat.
Proof.
  unfold call_effects.
  destruct (fetchAllTasksFromServer_fetches_once cur fetch w (with_trace st [])) as (new & -> & Hc).
  exact Hc.
Qed.

(** C4 (counterexample): a second call starts after the first has called the
    server action and before the first resolves; the two calls issue two
    fetches and two worker requests. *)
Lemma overlapping_calls_two_fetches_example :
  let e1 := call_effects (JSString "sig") (FetchReturns (mkKv (Some [task_a]) None)) (Some (WMessage (JSString "sig")))
              store_with_a in
  let e2 := call_effects (JSString "sig") (FetchReturns (mkKv (Some [task_b]) None)) (Some (WMessage (JSString "sig2")))
              store_with_a in
  interleaving e1 e2 (firstn 3 e1 ++ e2 ++ skipn 3 e1)
  /\ count_effects is_fetch (firstn 3 e1 ++ e2 ++ skipn 3 e1) = 2%nat
  /\ count_effects is_post (firstn 3 e1 ++ e2 ++ skipn 3 e1) = 2%nat.
Proof. vm_compute. split; [repeat constructor | split; reflexivity]. Qed.

(** C4 (amended): overlapping calls are not coalesced: whatever the
    interleaving of two calls of [fetchAllTasksFromServer], the server
    action is called twice, once by each call. *)
Theorem overlapping_fetchAll_calls_fetch_twice (cur1 cur2 : js_value)
    (f1 f2 : fetch_outcome) (w1 w2 : option worker_reply) (st1 st2 : store_state)
    (merged : list effect) :
  interleaving (call_effects cur1 f1 w1 st1) (call_effects cur2 f2 w2 st2) merged ->
  count_effects is_fetch merged = 2%nat.
Proof.
  intros H. rewrite (count_effects_interleaving _ _ _ _ H), !call_effects_fetch_once.
  reflexivity.
Qed.

Lemma overlapping_fetchAll_calls_fetch_twice_witness :
  let e1 := call_effects (JSString "sig") (FetchReturns (mkKv (Some [task_a]) None)) (Some (WMessage (JSString "sig")))
              store_with_a in
  let e2 := call_effects (JSString "sig") FetchPending None store_empty in
  interleaving e1 e2 (firstn 2 e1 ++ e2 ++ skipn 2 e1)
  /\ count_effects is_fetch (firstn 2 e1 ++ e2 ++ skipn 2 e1) = 2%nat.
Proof.
  assert (H : interleaving
                (call_effects (JSString "sig") (FetchReturns (mkKv (Some [task_a]) None)) (Some (WMessage (JSString "sig")))
                   store_with_a)
                (call_effects (JSString "sig") FetchPending None store_empty)
                (firstn 2 (call_effects (JSString "sig") (FetchReturns (mkKv (Some [task_a]) None))
                             (Some (WMessage (JSString "sig"))) store_with_a)
                 ++ call_effects (JSString "sig") FetchPending None store_empty
                 ++ skipn 2 (call_effects (JSString "sig") (FetchReturns (mkKv (Some [task_a]) None))
                               (Some (WMessage (JSString "sig"))) store_with_a)))
    by (vm_compute; repeat constructor).
  split; [exact H | apply (overlapping_fetchAll_calls_fetch_twice _ _ _ _ _ _ _ _ _ H)].
Defined.

(** ** C5: matching answers to requests *)

(** C5 (counterexample): the [allTasks] effect posts a request, then a fetch
    cycle registers its listener and posts its own; the first answer the
    worker posts, computed for the effect's request 0, resolves the fetch's
    listener of request 1. *)
Lemma fetch_listener_takes_other_answer :
  (client_run channel_init [CEffectPost; CFetchPost; CDeliver (JSObject 0)]).2
  = [mkResolution 1 0 (JSObject 0)].
Proof. reflexivity. Qed.

Lemma map_set_keys {V} (k x : string) (v : V) (m : list (string * V)) :
  In x (map fst (map_set k v m)) -> x = k \/ In x (map fst m).
Proof.
  induction m as [|[k' v'] r IH]; cbn; [intuition|].
  destruct (String.eqb k k') eqn:E; cbn; [intuition|].
  intros [-> | H]; [auto|]. destruct (IH H); auto.
Qed.

Lemma process_pending_ids (now : Z) (cache : list (string * cache_entry))
    (pending : list (string * list Task)) (r : WorkerResponse) :
  In r (process_pending now cache pending).2 -> In (resp_id r) (map fst pending).
Proof.
  revert cache. induction pending as [|[i tasks] rest IH]; intros cache; cbn; [tauto|].
  destruct (generateSignature tasks) as [sg|m].
  - destruct (process_pending now _ rest) as [c2 out] eqn:E; cbn.
    intros [<- | H]; [auto|]. right. apply (IH (cleanCache now (map_set (generateCacheKey tasks)
      (mkEntry sg now 1) cache))). rewrite E. exact H.
  - destruct (process_pending now cache rest) as [c2 out] eqn:E; cbn.
    intros [<- | H]; [auto|]. right. apply (IH cache). rewrite E. exact H.
Qed.

Lemma worker_run_ids (ws : worker_state) (evs : list worker_event) (seen : list string) :
  (forall i, In i (map fst (pendingTasks ws)) -> In i seen) ->
  forall r, In r (worker_run ws evs).2 -> In (resp_id r) (seen ++ received_ids evs).
Proof.
  revert ws seen. induction evs as [|e evs IH]; intros ws seen Hinv r; cbn [worker_run]; [cbn; tauto|].
  destruct (worker_step ws e) as [ws1 out1] eqn:Estep.
  destruct (worker_run ws1 evs) as [ws2 out2] eqn:Erun. cbn [snd].
  set (seen1 := seen ++ match e with WMsg _ m => [msg_id m] | WTimer _ => [] end).
  assert (Hstep : (forall r, In r out1 -> In (resp_id r) seen1)
                  /\ (forall i, In i (map fst (pendingTasks ws1)) -> In i seen1)).
  { subst seen1. destruct e as [now m | now]; cbn in Estep.
    - destruct (String.eqb (msg_type m) "process").
      + destruct (map_get (generateCacheKey (msg_tasks m)) (taskCache ws)) as [c|].
        * injection Estep as <- <-. cbn. split.
          -- intros r' [<- | []]. apply in_or_app. right. left. reflexivity.
          -- intros i Hi. apply in_or_app. left. auto.
        * injection Estep as <- <-. cbn. split; [tauto|].
          intros i Hi. apply map_set_keys in Hi as [-> | Hi].
          -- apply in_or_app. right. left. reflexivity.
          -- apply in_or_app. left. auto.
      + destruct (String.eqb (msg_type m) "cleanup").
        * injection Estep as <- <-. cbn. split; [|tauto].
          intros r' [<- | []]. apply in_or_app. right. left. reflexivity.
        * injection Estep as <- <-. cbn. split.
          -- intros r' [<- | []]. apply in_or_app. right. left. reflexivity.
          -- intros i Hi. apply in_or_app. left. auto.
    - rewrite app_nil_r. destruct (debounceArmed ws).
      + destruct (process_pending now (taskCache ws) (pendingTasks ws)) as [c' out] eqn:Ep.
        injection Estep as <- <-. cbn. split; [|tauto].
        intros r' Hr. apply Hinv, (process_pending_ids now (taskCache ws)). rewrite Ep. exact Hr.
      + injection Estep as <- <-. split; [intros ? [] | exact Hinv]. }
  destruct Hstep as [Hout Hpend].
  assert (Hseen : seen1 ++ received_ids evs = seen ++ received_ids (e :: evs)).
  { subst seen1. cbn. rewrite app_assoc. reflexivity. }
  intros Hr. apply in_app_or in Hr as [Hr | Hr].
  - rewrite <- Hseen. apply in_or_app. left. auto.
  - rewrite <- Hseen. apply (IH ws1 seen1 Hpend). rewrite Erun. exact Hr.
Qed.

Lemma client_run_app (ch : channel) (l1 l2 : list client_event) :
  client_run ch (l1 ++ l2)
  = ((client_run (client_run ch l1).1 l2).1,
     (client_run ch l1).2 ++ (client_run (client_run ch l1).1 l2).2).
Proof.
  revert ch. induction l1 as [|e l1 IH]; intros ch; cbn.
  - destruct (client_run ch l2); reflexivity.
  - destruct (client_step ch e) as [ch1 out1]. rewrite IH.
    destruct (client_run ch1 l1) as [ch2 out2]. cbn.
    destruct (client_run ch2 l2) as [ch3 out3]. cbn. rewrite app_assoc. reflexivity.
Qed.

Lemma client_run_posts (ch : channel) (evs : list client_event) :
  forallb is_post_event evs = true ->
  exists q l, client_run ch evs
              = (mkChannel (ch_next ch + length evs) (ch_queue ch ++ q) (ch_listeners ch ++ l)
                   (currentTasksSignature ch), []).
Proof.
  revert ch. induction evs as [|e evs IH]; intros ch Hp.
  - exists [], []. destruct ch; cbn. rewrite !app_nil_r, Nat.add_0_r. reflexivity.
  - cbn in Hp. apply andb_prop in Hp as [He Hp].
    destruct e as [| |p]; [| |discriminate]; cbn;
      match goal with |- context [client_run ?c evs] => destruct (IH c Hp) as (q & l & ->) end;
      cbn.
    + exists (ch_next ch :: q), l. rewrite <- app_assoc, Nat.add_succ_r. reflexivity.
    + exists (ch_next ch :: q), (ch_next ch :: l). rewrite <- !app_assoc, Nat.add_succ_r.
      reflexivity.
Qed.

(** C5 (amended): the worker echoes in every response the id of a request
    it received. The store's requests carry no id: when an answer arrives,
    every temporary listener registered at that point resolves with it, and
    the answer is the one for the oldest outstanding request. So the
    listener of a fetch cycle, and of every cycle still waiting, resolves
    with the answer to the oldest request outstanding when the cycle posted
    its own (its own only when none was outstanding). *)
Theorem worker_echoes_ids_store_takes_next_answer :
  (forall evs r, In r (worker_run worker_init evs).2 -> In (resp_id r) (received_ids evs))
  /\ (forall ch evs p l, forallb is_post_event evs = true ->
        In l (ch_listeners ch ++ [ch_next ch]) ->
        In (mkResolution l (hd (ch_next ch) (ch_queue ch)) p)
           (client_run ch (CFetchPost :: evs ++ [CDeliver p])).2).
Proof.
  split.
  - intros evs r Hr. apply (worker_run_ids worker_init evs [] (fun i H => H) r Hr).
  - intros ch evs p l Hp Hl. cbn [client_run client_step].
    rewrite client_run_app.
    destruct (client_run_posts
                (mkChannel (S (ch_next ch)) (ch_queue ch ++ [ch_next ch])
                   (ch_listeners ch ++ [ch_next ch]) (currentTasksSignature ch)) evs Hp)
      as (q & l' & ->).
    cbn. rewrite <- app_assoc.
    destruct (ch_queue ch) as [|k Q]; cbn; rewrite app_nil_r;
      apply in_map_iff; exists l; (split; [reflexivity | apply in_or_app; auto]).
Qed.

Lemma worker_echoes_ids_store_takes_next_answer_witness :
  In "req-1"%string (received_ids [WMsg 0 (mkMsg "req-1" [task_a] "ping")])
  /\ (forallb is_post_event [CEffectPost] = true /\
      In 0%nat (ch_listeners (mkChannel 1 [0%nat] [0%nat] (JSString "")) ++ [1%nat]) /\
      In (mkResolution 0 0 (JSObject 5))
        (client_run (mkChannel 1 [0%nat] [0%nat] (JSString ""))
           (CFetchPost :: [CEffectPost] ++ [CDeliver (JSObject 5)])).2).
Proof.
  destruct worker_echoes_ids_store_takes_next_answer as [Hw Hc]. split.
  - apply (Hw _ (mkResp "req-1" None (Some "Unknown message type: ping") None)).
    vm_compute. left. reflexivity.
  - split; [reflexivity|]. split; [cbn; auto|].
    apply (Hc (mkChannel 1 [0%nat] [0%nat] (JSString "")) [CEffectPost] (JSObject 5) 0%nat);
      [reflexivity | cbn; auto].
Defined.

(** ** More properties: Server actions on Redis *)

Lemma redis_del_spec (keys : list string) (redis : redis_store) :
  (redis_del keys redis).1 = size (dom redis ∩ list_to_set keys)
  /\ forall k, (redis_del keys redis).2 !! k = if decide (k ∈ keys) then None else redis !! k.
Proof.
  revert redis. induction keys as [|k r IH]; intros redis; cbn [redis_del].
  - split.
    + cbn. rewrite intersection_empty_r_L, size_empty. reflexivity.
    + intros k. rewrite decide_False by set_solver. reflexivity.
  - destruct (redis !! k) as [t|] eqn:Ek.
    + destruct (IH (delete k redis)) as [IH1 IH2].
      destruct (redis_del r (delete k redis)) as [m redis2] eqn:Er. cbn in IH1, IH2 |- *.
      split.
      * rewrite IH1, dom_delete_L.
        assert (Hk : k ∈ dom redis) by (apply elem_of_dom; eauto).
        replace (dom redis ∩ ({[k]} ∪ list_to_set r))
          with ({[k]} ∪ ((dom redis ∖ {[k]}) ∩ list_to_set r)).
        -- pose proof (size_union (C := gset string) {[k]} ((dom redis ∖ {[k]}) ∩ list_to_set r)) as Hs.
           rewrite Hs by set_solver. rewrite size_singleton. reflexivity.
        -- apply set_eq. intros x. destruct (decide (x = k)) as [->|Hx]; set_solver.
      * intros x. rewrite IH2. destruct (decide (x = k)) as [->|Hx].
        -- rewrite lookup_delete_eq. rewrite (decide_True _ _ (list_elem_of_here k r)).
           destruct (decide (k ∈ r)); reflexivity.
        -- rewrite lookup_delete_ne by congruence.
           destruct (decide (x ∈ r)) as [Hin|Hin]; destruct (decide (x ∈ k :: r)) as [Hin'|Hin'];
             try reflexivity; exfalso; [apply Hin'; by right | apply elem_of_cons in Hin' as [|]; tauto].
    + destruct (IH redis) as [IH1 IH2].
      destruct (redis_del r redis) as [m redis2] eqn:Er. cbn in IH1, IH2 |- *.
      split.
      * rewrite IH1.
        assert (Hk : k ∉ dom redis) by (apply not_elem_of_dom; exact Ek).
        f_equal. apply set_eq. intros x. destruct (decide (x = k)) as [->|Hx]; set_solver.
      * intros x. rewrite IH2. destruct (decide (x = k)) as [->|Hx].
        -- rewrite (decide_True _ _ (list_elem_of_here k r)), Ek.
           destruct (decide (k ∈ r)); reflexivity.
        -- destruct (decide (x ∈ r)) as [Hin|Hin]; destruct (decide (x ∈ k :: r)) as [Hin'|Hin'];
             try reflexivity; exfalso; [apply Hin'; by right | apply elem_of_cons in Hin' as [|]; tauto].
Qed.

(** Extra: deleteTasks whose [redis.del] resolves reports as its count the
    number of distinct ids whose key exists, with no error, and afterwards
    every key of the given ids is absent while every other key is unchanged;
    when [redis.del] rejects, a non-empty list gets the rejection's message
    as its error and the store is unchanged. *)
Theorem deleteTasks_counts_distinct_existing (ids : list string) (redis : redis_store) :
  count_data (deleteTasks ids RedisOk redis).1
    = Some (size (dom redis ∩ list_to_set (map task_key ids)))
  /\ count_error (deleteTasks ids RedisOk redis).1 = None
  /\ (forall k, (deleteTasks ids RedisOk redis).2 !! k
                = if decide (k ∈ map task_key ids) then None else redis !! k)
  /\ (forall m, deleteTasks ids (RedisRejects m) redis
                = (match ids with
                   | [] => mkCountResult (Some 0%nat) None
                   | _ :: _ => mkCountResult None (Some m)
                   end, redis)).
Proof.
  unfold deleteTasks. destruct ids as [|i ids].
  - cbn. split; [|split; [reflexivity|split]].
    + rewrite intersection_empty_r_L, size_empty. reflexivity.
    + intros k. rewrite decide_False by set_solver. reflexivity.
    + intros m. reflexivity.
  - cbn [length Nat.eqb].
    destruct (redis_del_spec (map task_key (i :: ids)) redis) as [H1 H2].
    destruct (redis_del (map task_key (i :: ids)) redis) as [n r'] eqn:E. cbn in H1, H2 |- *.
    split; [f_equal; exact H1 | split; [reflexivity | split; [exact H2 | reflexivity]]].
Qed.

Lemma deleteTasks_counts_distinct_existing_witness :
  count_data (deleteTasks ["TASK-0001"; "TASK-0001"; "TASK-0009"] RedisOk redis_with_a).1
  = Some 1%nat.
Proof.
  destruct (deleteTasks_counts_distinct_existing ["TASK-0001"; "TASK-0001"; "TASK-0009"]
              redis_with_a) as [H _]. rewrite H. reflexivity.
Defined.

(** Extra: Deleting an existing task, with [redis.del] resolving, succeeds and
    removes just its key; a second deleteTask of the same id then reports that
    the task is not found, and so does updateTask, both leaving the store
    unchanged. A rejected [redis.del] answers with its message and deletes
    nothing. *)
Theorem deleteTask_then_missing (i : string) (redis : redis_store) (t : Task) (now : Z)
    (u : UpdateTaskSchema) (set_call : redis_call) :
  redis !! task_key i = Some t ->
  let redis' := (deleteTask i RedisOk redis).2 in
  (deleteTask i RedisOk redis).1 = mkDeleted (Some i) None
  /\ redis' = delete (task_key i) redis
  /\ deleteTask i RedisOk redis'
     = (mkDeleted None (Some "Task not found or already deleted."), redis')
  /\ updateTask now i u RedisOk set_call redis' = (mkAction None (Some "Task not found"), redis')
  /\ (forall m, deleteTask i (RedisRejects m) redis = (mkDeleted None (Some m), redis)).
Proof.
  intros Hi. unfold deleteTask. cbn [redis_del]. rewrite Hi. cbn.
  rewrite lookup_delete_eq. cbn. unfold updateTask. cbv beta iota zeta.
  repeat split.
Qed.

Lemma existsb_map_comp {A B} (f : A -> B) (p : B -> bool) (l : list A) :
  existsb p (map f l) = existsb (fun x => p (f x)) l.
Proof. induction l as [|x r IH]; cbn; [reflexivity|]. rewrite IH. reflexivity. Qed.

Lemma bulk_loop_replies (now : Z) (input : BulkUpdate) (redis : redis_store) (keys : list string) :
  bulk_loop now input (map (fun k => redis_reply_of <$> redis !! k) keys) keys
  = if existsb (fun k => bool_decide (is_Some (redis !! k))) keys
    then Throw json_parse_object_error else Ok ([], [], false).
Proof.
  induction keys as [|k r IH]; [reflexivity|]. cbn [map existsb bulk_loop].
  destruct (redis !! k) as [t|]; cbn [fmap option_fmap option_map]; [reflexivity|].
  rewrite IH. reflexivity.
Qed.

(** Extra: updateTasks never changes the store. With no ids it returns an
    empty list; a rejected [redis.mget] gives its message as the error; when
    [redis.mget] resolves, [JSON.parse] throws on the first listed task that
    exists (the client hands it back as an object), so the result is that
    parse error, or an empty list when no listed id exists. *)
Theorem updateTasks_never_writes (now : Z) (input : BulkUpdate) (mget_call exec_call : redis_call)
    (redis : redis_store) :
  updateTasks now input mget_call exec_call redis
  = (match b_ids input, mget_call with
     | [], _ => mkBulkResult (Some []) None
     | _ :: _, RedisRejects m => mkBulkResult None (Some m)
     | _ :: _, RedisOk =>
         if existsb (fun i => bool_decide (is_Some (redis !! task_key i))) (b_ids input)
         then mkBulkResult None (Some json_parse_object_error)
         else mkBulkResult (Some []) None
     end, redis).
Proof.
  unfold updateTasks. cbv zeta. rewrite bulk_loop_replies, existsb_map_comp.
  destruct (b_ids input) as [|i ids]; [reflexivity|].
  cbn [map length Nat.eqb]. destruct mget_call as [|m]; [|reflexivity].
  destruct (existsb _ (i :: ids)); reflexivity.
Qed.

(** Extra: updateTask never changes the store. A rejected [redis.get] gives
    its message as the error; a missing key gives "Task not found"; an
    existing task gives the error [JSON.parse] throws on the object the
    client hands back, whatever the update and however [redis.set] would
    settle. *)
Theorem updateTask_outcomes (now : Z) (i : string) (u : UpdateTaskSchema)
    (get_call set_call : redis_call) (redis : redis_store) :
  updateTask now i u get_call set_call redis
  = (match get_call, redis !! task_key i with
     | RedisRejects m, _ => mkAction None (Some m)
     | RedisOk, None => mkAction None (Some "Task not found")
     | RedisOk, Some _ => mkAction None (Some json_parse_object_error)
     end, redis).
Proof.
  unfold updateTask. destruct get_call; [|reflexivity].
  destruct (redis !! task_key i); reflexivity.
Qed.

Lemma map_result_replies (redis : redis_store) (keys : list string) :
  map_result (fun json => match json with
                          | Some v => bind_result (JSON_parse v) (fun t => Ok (Some t))
                          | None => Ok None
                          end) (map (fun k => redis_reply_of <$> redis !! k) keys)
  = if existsb (fun k => bool_decide (is_Some (redis !! k))) keys
    then Throw json_parse_object_error else Ok (map (fun _ => None) keys).
Proof.
  induction keys as [|k r IH]; [reflexivity|]. cbn [map existsb map_result].
  destruct (redis !! k) as [t|]; cbn [fmap option_fmap option_map]; [reflexivity|].
  cbn [bind_result]. rewrite IH. destruct (existsb _ r); reflexivity.
Qed.

Lemma omap_all_none {A B} (l : list A) :
  omap (fun x : option B => x) (map (fun _ => None) l) = [].
Proof. induction l; cbn; auto. Qed.

(** Extra: part_003's getAllTasksFromKV returns no tasks whenever there is
    one to return: when the SCAN finds keys and [redis.mget] resolves, a key
    that holds a task makes [JSON.parse] throw on the object the client hands
    back, and the result is that parse error; otherwise it is an empty list. A
    rejected SCAN or [redis.mget] gives its message as the error. *)
Theorem getAllTasksFromKV_never_returns_tasks (scan_call mget_call : redis_call)
    (taskKeys : list string) (redis : redis_store) :
  KV.getAllTasksFromKV scan_call mget_call taskKeys redis
  = match scan_call, taskKeys, mget_call with
    | RedisRejects m, _, _ => mkKv None (Some m)
    | RedisOk, [], _ => mkKv (Some []) None
    | RedisOk, _ :: _, RedisRejects m => mkKv None (Some m)
    | RedisOk, _ :: _, RedisOk =>
        if existsb (fun k => bool_decide (is_Some (redis !! k))) taskKeys
        then mkKv None (Some json_parse_object_error)
        else mkKv (Some []) None
    end.
Proof.
  unfold KV.getAllTasksFromKV. destruct scan_call as [|m]; [|reflexivity].
  destruct taskKeys as [|k ks]; [reflexivity|]. cbn [length Nat.eqb].
  destruct mget_call as [|m]; [|reflexivity].
  rewrite map_result_replies. destruct (existsb _ (k :: ks)); [reflexivity|].
  rewrite omap_all_none. reflexivity.
Qed.

Lemma task_key_inj (i j : string) : task_key i = task_key j -> i = j.
Proof. unfold task_key. cbn. intros H. injection H. auto. Qed.

Lemma pipeline_exec_notin (pipe : list (string * Task)) (redis : redis_store) (k : string) :
  k ∉ pipe.*1 -> pipeline_exec pipe redis !! k = redis !! k.
Proof.
  unfold pipeline_exec. revert redis. induction pipe as [|[k0 v0] r IH]; intros redis Hk; cbn; [reflexivity|].
  rewrite IH by (intros H; apply Hk; by right).
  apply lookup_insert_ne. intros ->. apply Hk. left.
Qed.

Lemma pipeline_exec_in (pipe : list (string * Task)) (redis : redis_store) (k : string) :
  k ∈ pipe.*1 -> exists v, pipeline_exec pipe redis !! k = Some v /\ (k, v) ∈ pipe.
Proof.
  unfold pipeline_exec. revert redis. induction pipe as [|[k0 v0] r IH]; intros redis Hk; cbn.
  - inversion Hk.
  - destruct (decide (k ∈ r.*1)) as [Hr|Hr].
    + destruct (IH (<[k0:=v0]> redis) Hr) as [v [Hv Hin]]. exists v. split; [exact Hv | by right].
    + apply elem_of_cons in Hk as [Hk|Hk]; [|contradiction]. cbn in Hk. subst k0.
      exists v0. split; [|left].
      pose proof (pipeline_exec_notin r (<[k:=v0]> redis) k Hr) as H. unfold pipeline_exec in H.
      rewrite H. apply lookup_insert_eq.
Qed.

Lemma pipeline_exec_dom (pipe : list (string * Task)) (redis : redis_store) :
  dom (pipeline_exec pipe redis) = dom redis ∪ list_to_set pipe.*1.
Proof.
  unfold pipeline_exec. revert redis. induction pipe as [|[k0 v0] r IH]; intros redis; cbn.
  - set_solver.
  - rewrite IH, dom_insert_L. set_solver.
Qed.

Lemma seed_loop_facts (now : Z) (new_Date : string -> option Z) (tasks : list (option RawTask)) :
  (seed_loop now new_Date tasks).1.*1 = map task_key (seed_ids tasks)
  /\ (seed_loop now new_Date tasks).2 = length (seed_ids tasks)
  /\ forall k t, (k, t) ∈ (seed_loop now new_Date tasks).1 -> k = task_key (id t).
Proof.
  induction tasks as [|[task|] r IH].
  - cbn. split; [reflexivity|]. split; [reflexivity|]. intros k t Hin. inversion Hin.
  - assert (Es : seed_ids (Some task :: r)
                 = match r_id task with
                   | Some i => if truthy_string (Some i) then i :: seed_ids r else seed_ids r
                   | None => seed_ids r end)
      by (unfold seed_ids; cbn; destruct (r_id task) as [i|]; cbn; [destruct (negb _)|]; reflexivity).
    rewrite Es. cbn [seed_loop].
    destruct IH as (IH1 & IH2 & IH3).
    destruct (seed_loop now new_Date r) as [pipe n]. cbn in IH1, IH2, IH3.
    destruct (r_id task) as [i|]; [|auto].
    destruct (truthy_string (Some i)); cbn; [|auto].
    rewrite IH1, IH2. split; [reflexivity|]. split; [reflexivity|].
    intros k t [Hkt|Hkt]%elem_of_cons; [|auto]. injection Hkt as -> ->. reflexivity.
  - exact IH.
Qed.

(** Extra: For a parsed JSON array, seedTasksToRedis whose [pipeline.exec]
    resolves counts the entries with a truthy id, reports an error only when
    a non-empty array has none, adds exactly their keys to the store and
    stores under each such key a task with that id. When [pipeline.exec]
    rejects on a non-empty set of valid entries, nothing is stored and the
    result is the catch block's: count 0 and the rejection's message, or
    "mock-tasks.json not found." when that message mentions ENOENT. *)
Theorem seedTasksToRedis_array (now : Z) (new_Date : string -> option Z)
    (tasks : list (option RawTask)) (redis : redis_store) :
  (let '(res, redis') := seedTasksToRedis now new_Date (ParsedArray tasks) RedisOk redis in
   seed_count res = length (seed_ids tasks)
   /\ seed_error res = match tasks, seed_ids tasks with
                       | [], _ => None
                       | _, [] => Some "No valid tasks in JSON to seed."
                       | _, _ => None
                       end
   /\ dom redis' = dom redis ∪ list_to_set (map task_key (seed_ids tasks))
   /\ forall i, i ∈ seed_ids tasks -> exists t, redis' !! task_key i = Some t /\ id t = i)
  /\ (forall m, seedTasksToRedis now new_Date (ParsedArray tasks) (RedisRejects m) redis
               = match seed_ids tasks with
                 | [] => seedTasksToRedis now new_Date (ParsedArray tasks) RedisOk redis
                 | _ :: _ => (seed_catch m, redis)
                 end).
Proof.
  destruct (seed_loop_facts now new_Date tasks) as (H1 & H2 & H3).
  unfold seedTasksToRedis. destruct tasks as [|o tasks]; cbn [length Nat.eqb].
  { cbn. split; [|intros m; reflexivity].
    split; [reflexivity|]. split; [reflexivity|]. split; [set_solver|]. intros i Hi. inversion Hi. }
  destruct (seed_loop now new_Date (o :: tasks)) as [pipe n]. cbn [fst snd] in H1, H2, H3. subst n.
  destruct (seed_ids (o :: tasks)) as [|i0 ids] eqn:Eids; cbn -[seed_ids pipeline_exec seed_catch].
  - split; [|intros m; reflexivity].
    split; [reflexivity|]. split; [reflexivity|]. split; [set_solver|]. intros i Hi. inversion Hi.
  - split; [|intros m; reflexivity].
    split; [reflexivity|]. split; [reflexivity|]. split.
    + rewrite pipeline_exec_dom, H1. reflexivity.
    + intros i Hi. destruct (pipeline_exec_in pipe redis (task_key i)) as [t [Ht Hin]].
      { rewrite H1. apply list_elem_of_fmap. exists i. split; [reflexivity|]. exact Hi. }
      exists t. split; [exact Ht|]. symmetry. apply task_key_inj. apply (H3 _ _ Hin).
Qed.

(** Extra: createTask whose [redis.set] resolves succeeds and writes the
    returned task under its key, overwriting any task with the same generated
    id and changing no other key; deleting the new id afterwards removes that
    key. When [redis.set] rejects, the action answers with its message and
    stores nothing. *)
Theorem createTask_overwrites (digits1 digits2 : string) (now1 now2 : Z)
    (input : CreateTaskSchema) (redis : redis_store) :
  let k := task_key ("TASK-" ++ digits1)%string in
  (let '(res, redis1) := createTask digits1 digits2 now1 now2 input RedisOk redis in
   error res = None
   /\ redis1 !! k = data res
   /\ (forall k', k' <> k -> redis1 !! k' = redis !! k')
   /\ size redis1 = match redis !! k with Some _ => size redis | None => S (size redis) end
   /\ deleteTask ("TASK-" ++ digits1)%string RedisOk redis1
      = (mkDeleted (Some ("TASK-" ++ digits1)%string) None, delete k redis))
  /\ (forall m, createTask digits1 digits2 now1 now2 input (RedisRejects m) redis
               = (mkAction None (Some m), redis)).
Proof.
  cbn zeta. unfold createTask. cbn [id].
  set (t := mkTask _ _ _ _ _ _ _ _ _ _). set (k := task_key _).
  split; [|intros m; reflexivity].
  split; [reflexivity|]. split; [apply lookup_insert_eq|]. split; [|split].
  - intros k' Hk. apply lookup_insert_ne. congruence.
  - rewrite map_size_insert. destruct (redis !! k); reflexivity.
  - unfold deleteTask. cbn [redis_del]. fold k. rewrite lookup_insert_eq. cbn.
    rewrite delete_insert_eq. reflexivity.
Qed.

Lemma deleteTask_then_missing_witness :
  redis_with_a !! task_key "TASK-0001" = Some task_a
  /\ (deleteTask "TASK-0001" RedisOk (deleteTask "TASK-0001" RedisOk redis_with_a).2).1
     = mkDeleted None (Some "Task not found or already deleted.").
Proof.
  assert (H : redis_with_a !! task_key "TASK-0001" = Some task_a) by reflexivity.
  split; [exact H|].
  destruct (deleteTask_then_missing "TASK-0001" redis_with_a task_a 0 no_update RedisOk H)
    as (_ & _ & H3 & _).
  rewrite H3. reflexivity.
Defined.

(** ** More properties: The signature worker *)

Lemma insert_sorted_perm {A} (le : A -> A -> bool) (x : A) (l : list A) :
  insert_sorted le x l ≡ₚ x :: l.
Proof.
  induction l as [|y r IH]; cbn; [reflexivity|].
  destruct (le y x); [|reflexivity]. rewrite IH. constructor.
Qed.

Lemma sort_by_perm {A} (le : A -> A -> bool) (l : list A) : sort_by le l ≡ₚ l.
Proof.
  unfold sort_by. assert (H : forall acc, fold_left (fun acc x => insert_sorted le x acc) l acc ≡ₚ l ++ acc).
  { induction l as [|x r IH]; intros acc; cbn; [reflexivity|].
    rewrite IH, insert_sorted_perm. rewrite Permutation_middle. reflexivity. }
  rewrite H, app_nil_r. reflexivity.
Qed.

Section sorted.
Context {A} (le : A -> A -> bool) (le_total : forall x y, le x y = false -> le y x = true).
Let R x y := le x y = true.

Lemma insert_sorted_HdRel (y x : A) (l : list A) :
  HdRel R y l -> R y x -> HdRel R y (insert_sorted le x l).
Proof.
  destruct l as [|z r]; cbn; intros H Hyx; [by constructor|].
  destruct (le z x); constructor; [inversion H; assumption | exact Hyx].
Qed.

Lemma insert_sorted_Sorted (x : A) (l : list A) : Sorted R l -> Sorted R (insert_sorted le x l).
Proof.
  induction l as [|y r IH]; cbn; intros H; [repeat constructor|].
  inversion H as [|? ? Hr Hhd]; subst.
  destruct (le y x) eqn:E.
  - constructor; [apply IH, Hr|]. apply insert_sorted_HdRel; assumption.
  - constructor; [exact H|]. constructor. apply le_total, E.
Qed.

Lemma sort_by_Sorted (l : list A) : Sorted R (sort_by le l).
Proof.
  unfold sort_by. assert (H : forall acc, Sorted R acc ->
    Sorted R (fold_left (fun acc x => insert_sorted le x acc) l acc)).
  { induction l as [|x r IH]; intros acc Hacc; cbn; [exact Hacc|].
    apply IH, insert_sorted_Sorted, Hacc. }
  apply H. constructor.
Qed.
End sorted.

Lemma string_compare_lt_trans (a b c : string) :
  String.compare a b = Lt -> String.compare b c = Lt -> String.compare a c = Lt.
Proof.
  revert b c. induction a as [|ca a IH]; intros [|cb b] [|cc c]; cbn; try discriminate; auto.
  destruct (Ascii.compare ca cb) eqn:E1; try discriminate;
  destruct (Ascii.compare cb cc) eqn:E2; try discriminate; intros H1 H2.
  - apply Ascii.compare_eq_iff in E1, E2. subst. unfold Ascii.compare. rewrite N.compare_refl.
    eapply IH; eassumption.
  - apply Ascii.compare_eq_iff in E1. subst. rewrite E2. reflexivity.
  - apply Ascii.compare_eq_iff in E2. subst. rewrite E1. reflexivity.
  - unfold Ascii.compare in *. rewrite N.compare_lt_iff in E1, E2.
    assert (E : N.compare (N_of_ascii ca) (N_of_ascii cc) = Lt) by (apply N.compare_lt_iff; lia).
    rewrite E. reflexivity.
Qed.

Lemma string_compare_refl (a : string) : String.compare a a = Eq.
Proof.
  induction a as [|ca a IH]; cbn; [reflexivity|]. unfold Ascii.compare. rewrite N.compare_refl. exact IH.
Qed.

Lemma str_leb_total (a b : string) : str_leb a b = false -> str_leb b a = true.
Proof.
  unfold str_leb. rewrite (String.compare_antisym b a).
  destruct (String.compare a b); cbn; congruence.
Qed.

#[local] Instance str_leb_trans : Transitive (fun a b => str_leb a b = true).
Proof.
  intros a b c. unfold str_leb.
  destruct (String.compare a b) eqn:E1; try discriminate;
  destruct (String.compare b c) eqn:E2; try discriminate; intros _ _.
  - apply String.compare_eq_iff in E1, E2. subst. rewrite string_compare_refl. reflexivity.
  - apply String.compare_eq_iff in E1. subst. rewrite E2. reflexivity.
  - apply String.compare_eq_iff in E2. subst. rewrite E1. reflexivity.
  - rewrite (string_compare_lt_trans a b c E1 E2). reflexivity.
Qed.

#[local] Instance str_leb_antisymm : AntiSymm (=) (fun a b => str_leb a b = true).
Proof.
  intros a b. unfold str_leb. rewrite (String.compare_antisym b a).
  destruct (String.compare a b) eqn:E; cbn; try discriminate; intros _ _.
  apply String.compare_eq_iff, E.
Qed.

(** Extra: The worker cache key of a task list does not depend on the order of
    the tasks. *)
Theorem generateCacheKey_perm (tasks tasks' : list Task) :
  tasks ≡ₚ tasks' -> generateCacheKey tasks = generateCacheKey tasks'.
Proof.
  intros Hp. unfold generateCacheKey. f_equal.
  apply (Sorted_unique (fun a b => str_leb a b = true)).
  - apply sort_by_Sorted, str_leb_total.
  - apply sort_by_Sorted, str_leb_total.
  - rewrite !sort_by_perm. apply Permutation_map, Hp.
Qed.

Lemma generateCacheKey_perm_witness :
  [task_a; task_b] ≡ₚ [task_b; task_a]
  /\ generateCacheKey [task_a; task_b] = generateCacheKey [task_b; task_a].
Proof.
  assert (H : [task_a; task_b] ≡ₚ [task_b; task_a]) by apply Permutation_swap.
  split; [exact H|]. apply (generateCacheKey_perm _ _ H).
Defined.

Lemma map_set_length_hit {V} (k : string) (v : V) (m : list (string * V)) :
  is_Some (map_get k m) -> length (map_set k v m) = length m.
Proof.
  induction m as [|[k' v'] r IH]; cbn; [intros [? H]; discriminate|].
  destruct (String.eqb k k'); cbn; [reflexivity|]. intros H. rewrite IH by exact H. reflexivity.
Qed.

Lemma filter_all_in {A} (P : A -> Prop) `{!forall x, Decision (P x)} (l : list A) :
  (forall x, x ∈ l -> P x) -> filter P l = l.
Proof.
  induction l as [|x r IH]; intros Hl; [reflexivity|].
  rewrite filter_cons_True by (apply Hl; left). rewrite IH by (intros y Hy; apply Hl; by right).
  reflexivity.
Qed.

Lemma filter_none_in {A} (P : A -> Prop) `{!forall x, Decision (P x)} (l : list A) :
  (forall x, x ∈ l -> ~ P x) -> filter P l = [].
Proof.
  induction l as [|x r IH]; intros Hl; [reflexivity|].
  rewrite filter_cons_False by (apply Hl; left). apply IH. intros y Hy; apply Hl; by right.
Qed.

Lemma fold_map_delete (R c : list (string * cache_entry)) :
  fold_left (fun c kv => map_delete kv.1 c) R c = filter (fun kv => kv.1 ∉ R.*1) c.
Proof.
  revert c. induction R as [|[k e] R IH]; intros c; cbn.
  - symmetry. apply filter_all_in. intros x _. set_solver.
  - rewrite IH. unfold map_delete. rewrite list_filter_filter.
    apply list_filter_iff. intros [x ex]; cbn.
    rewrite not_elem_of_cons. destruct (String.eqb_spec k x) as [->|Hne]; cbn; [tauto|].
    split; [intros [H _]; split; [congruence|exact H] | intros [_ H]; split; [exact H | exact I]].
Qed.

Lemma cleanCache_bound (now : Z) (cache : list (string * cache_entry)) :
  (length (cleanCache now cache) <= CACHE_SIZE)%nat.
Proof.
  unfold cleanCache. destruct (Nat.leb (length cache) CACHE_SIZE) eqn:E; [apply Nat.leb_le, E|].
  apply Nat.leb_gt in E. rewrite fold_map_delete.
  set (w := fun e : string * cache_entry => ce_weight e.2 * (now - ce_timestamp e.2)).
  set (entries := sort_by (fun a b => w a <=? w b) cache).
  assert (Hp : entries ≡ₚ cache) by apply sort_by_perm.
  set (Rm := take (length entries - CACHE_SIZE) entries).
  assert (HR : Rm ⊆+ cache).
  { rewrite <- Hp. apply sublist_submseteq, sublist_take. }
  assert (HRl : length Rm = (length cache - CACHE_SIZE)%nat).
  { unfold Rm. rewrite length_take_le; rewrite (Permutation_length Hp); lia. }
  destruct (submseteq_Permutation _ _ HR) as [l' Hl'].
  rewrite Hl', filter_app.
  rewrite (filter_none_in (fun kv => kv.1 ∉ Rm.*1) Rm)
    by (intros x Hx Hn; apply Hn, list_elem_of_fmap; exists x; auto).
  cbn. etransitivity; [apply length_filter|].
  apply Permutation_length in Hl'. rewrite length_app in Hl'. unfold CACHE_SIZE in *. lia.
Qed.

Lemma process_pending_bound (now : Z) (cache : list (string * cache_entry))
    (pending : list (string * list Task)) :
  (length cache <= CACHE_SIZE)%nat ->
  (length (process_pending now cache pending).1 <= CACHE_SIZE)%nat.
Proof.
  revert cache. induction pending as [|[i tasks] r IH]; intros cache Hc; cbn; [exact Hc|].
  destruct (generateSignature tasks) as [s|m].
  - specialize (IH (cleanCache now (map_set (generateCacheKey tasks) (mkEntry s now 1) cache))
                   (cleanCache_bound _ _)).
    destruct (process_pending _ _ r). exact IH.
  - specialize (IH cache Hc). destruct (process_pending now cache r). exact IH.
Qed.

Lemma worker_step_bound (ws : worker_state) (e : worker_event) :
  (length (taskCache ws) <= CACHE_SIZE)%nat ->
  (length (taskCache (worker_step ws e).1) <= CACHE_SIZE)%nat.
Proof.
  intros H. destruct e as [now m|now]; cbn.
  - destruct (String.eqb (msg_type m) "process").
    + destruct (map_get (generateCacheKey (msg_tasks m)) (taskCache ws)) eqn:Eg; cbn; [|exact H].
      rewrite map_set_length_hit by (rewrite Eg; eauto). exact H.
    + destruct (String.eqb (msg_type m) "cleanup"); cbn; [lia | exact H].
  - destruct (debounceArmed ws); [|exact H].
    pose proof (process_pending_bound now (taskCache ws) (pendingTasks ws) H) as Hp.
    destruct (process_pending now (taskCache ws) (pendingTasks ws)). exact Hp.
Qed.

(** Extra: From the initial state, whatever messages and timer firings occur,
    the worker cache never holds more than CACHE_SIZE entries. *)
Theorem worker_cache_bounded (evs : list worker_event) :
  (length (taskCache (worker_run worker_init evs).1) <= CACHE_SIZE)%nat.
Proof.
  assert (H : forall ws, (length (taskCache ws) <= CACHE_SIZE)%nat ->
            (length (taskCache (worker_run ws evs).1) <= CACHE_SIZE)%nat).
  { induction evs as [|e r IH]; intros ws Hws; cbn; [exact Hws|].
    pose proof (worker_step_bound ws e Hws) as H1.
    destruct (worker_step ws e) as [ws1 out1]. cbn in H1.
    specialize (IH ws1 H1). destruct (worker_run ws1 r). exact IH. }
  apply H. cbn. lia.
Qed.

(** Extra: A cleanup message answers with a cleanup status and resets the
    worker: pending requests and cache are dropped and later timer firings
    post nothing. *)
Theorem worker_cleanup_drops_pending (ws : worker_state) (now : Z) (i : string)
    (tasks : list Task) (timers : list Z) :
  worker_run ws (WMsg now (mkMsg i tasks "cleanup") :: map WTimer timers)
  = (worker_init, [mkResp i None None (Some "cleanup")]).
Proof.
  cbn [worker_run]. unfold worker_step at 1. cbn [msg_type msg_id String.eqb Ascii.eqb Bool.eqb].
  assert (H : forall ts, worker_run (mkWorker [] [] false) (map WTimer ts) = (mkWorker [] [] false, [])).
  { induction ts as [|t r IH]; cbn; [reflexivity|]. rewrite IH. reflexivity. }
  rewrite H. reflexivity.
Qed.

Lemma map_set_twice {V} (k : string) (v1 v2 : V) (m : list (string * V)) :
  map_set k v2 (map_set k v1 m) = map_set k v2 m.
Proof.
  induction m as [|[k' v'] r IH]; cbn.
  - rewrite String.eqb_refl. reflexivity.
  - destruct (String.eqb k k') eqn:E; cbn; rewrite E; [reflexivity|]. rewrite IH. reflexivity.
Qed.

(** Extra: In any worker state whose cache holds neither message's cache key,
    two process messages with the same id before the debounce timer fires
    are answered together when it fires: the answers are those of the queue
    with that id's entry set to the second message's tasks, so the id gets a
    single answer, computed from the second message (from an empty queue, it
    is the only answer). *)
Theorem worker_same_id_merged (ws : worker_state) (n1 n2 n3 : Z) (i : string)
    (ts1 ts2 : list Task) :
  map_get (generateCacheKey ts1) (taskCache ws) = None ->
  map_get (generateCacheKey ts2) (taskCache ws) = None ->
  (worker_run ws [WMsg n1 (mkMsg i ts1 "process"); WMsg n2 (mkMsg i ts2 "process");
                  WTimer n3]).2
  = map (fun '(j, ts) => pending_response j ts) (map_set i ts2 (pendingTasks ws)).
Proof.
  intros H1 H2.
  cbn [worker_run worker_step msg_type msg_id msg_tasks String.eqb Ascii.eqb Bool.eqb].
  rewrite H1. cbn [taskCache pendingTasks debounceArmed]. rewrite H2.
  cbn [taskCache pendingTasks debounceArmed]. rewrite map_set_twice.
  pose proof (process_pending_responses n3 (taskCache ws) (map_set i ts2 (pendingTasks ws))) as Hp.
  destruct (process_pending n3 (taskCache ws) (map_set i ts2 (pendingTasks ws))) as [c out].
  cbn in Hp |- *. rewrite Hp, !app_nil_r. reflexivity.
Qed.

Lemma worker_same_id_merged_witness :
  map_get (generateCacheKey [task_a]) [("TASK-0003:undefined", mkEntry [] 0 1)] = None
  /\ map_get (generateCacheKey [task_b]) [("TASK-0003:undefined", mkEntry [] 0 1)] = None
  /\ (worker_run (mkWorker [("TASK-0003:undefined", mkEntry [] 0 1)] [] false)
        [WMsg 0 (mkMsg "r1" [task_a] "process"); WMsg 10 (mkMsg "r1" [task_b] "process");
         WTimer 300]).2
     = [pending_response "r1" [task_b]].
Proof.
  assert (H1 : map_get (generateCacheKey [task_a]) [("TASK-0003:undefined", mkEntry [] 0 1)] = None)
    by (vm_compute; reflexivity).
  assert (H2 : map_get (generateCacheKey [task_b]) [("TASK-0003:undefined", mkEntry [] 0 1)] = None)
    by (vm_compute; reflexivity).
  split; [exact H1|]. split; [exact H2|].
  rewrite (worker_same_id_merged (mkWorker [("TASK-0003:undefined", mkEntry [] 0 1)] [] false)
             0 10 300 "r1" [task_a] [task_b] H1 H2).
  reflexivity.
Defined.

(** Extra: Once a signature is cached, a later request whose task list has the
    same cache key is answered with the cached signature, even if its tasks
    differ in fields outside the key. *)
Theorem worker_cache_stale (n1 n2 n3 : Z) (i1 i2 : string) (ts1 ts2 : list Task) (s1 : text) :
  generateCacheKey ts2 = generateCacheKey ts1 ->
  generateSignature ts1 = Ok s1 ->
  (worker_run worker_init [WMsg n1 (mkMsg i1 ts1 "process"); WTimer n2;
                           WMsg n3 (mkMsg i2 ts2 "process")]).2
  = [mkResp i1 (Some s1) None None; mkResp i2 (Some s1) None None].
Proof.
  intros Hk Hs.
  cbn [worker_run worker_step worker_init msg_type msg_id msg_tasks taskCache pendingTasks
       debounceArmed String.eqb Ascii.eqb Bool.eqb map_get map_set process_pending].
  rewrite Hs. cbn [map_set]. unfold cleanCache at 1. cbn [length Nat.leb CACHE_SIZE].
  cbn [process_pending taskCache pendingTasks debounceArmed map_get]. rewrite Hk, String.eqb_refl.
  reflexivity.
Qed.

Lemma worker_cache_stale_witness :
  generateSignature [task_a_done] <> generateSignature [task_a]
  /\ (worker_run worker_init [WMsg 0 (mkMsg "r1" [task_a] "process"); WTimer 300;
                              WMsg 400 (mkMsg "r2" [task_a_done] "process")]).2
     = [mkResp "r1" (Some (match generateSignature [task_a] with Ok s => s | Throw _ => [] end)) None None;
        mkResp "r2" (Some (match generateSignature [task_a] with Ok s => s | Throw _ => [] end)) None None].
Proof.
  split; [vm_compute; discriminate|].
  apply worker_cache_stale; vm_compute; reflexivity.
Defined.

Lemma worker_run_app (ws : worker_state) (l1 l2 : list worker_event) :
  worker_run ws (l1 ++ l2)
  = let '(ws1, o1) := worker_run ws l1 in let '(ws2, o2) := worker_run ws1 l2 in (ws2, o1 ++ o2).
Proof.
  revert ws. induction l1 as [|e r IH]; intros ws; cbn.
  - destruct (worker_run ws l2). reflexivity.
  - destruct (worker_step ws e) as [ws1 o1]. rewrite IH.
    destruct (worker_run ws1 r) as [ws2 o2]. destruct (worker_run ws2 l2) as [ws3 o3].
    rewrite app_assoc. reflexivity.
Qed.

Lemma map_set_fresh {V} (k : string) (v : V) (m : list (string * V)) :
  k ∉ m.*1 -> map_set k v m = m ++ [(k, v)].
Proof.
  induction m as [|[k' v'] r IH]; cbn; intros Hk; [reflexivity|].
  destruct (String.eqb_spec k k') as [->|Hne]; [exfalso; apply Hk; left|].
  rewrite IH by (intros H; apply Hk; by right). reflexivity.
Qed.

Lemma worker_batch_queue (cache : list (string * cache_entry)) (reqs : list (Z * string * list Task))
    (pend : list (string * list Task)) (armed : bool) :
  NoDup (pend.*1 ++ map (fun r => r.1.2) reqs) ->
  Forall (fun r => map_get (generateCacheKey r.2) cache = None) reqs ->
  worker_run (mkWorker cache pend armed) (map process_msg reqs)
  = (mkWorker cache (pend ++ map (fun r => (r.1.2, r.2)) reqs)
       (match reqs with [] => armed | _ => true end), []).
Proof.
  revert pend armed. induction reqs as [|[[n i] ts] r IH]; intros pend armed Hnd Hc; cbn.
  - rewrite app_nil_r. reflexivity.
  - apply Forall_cons in Hc as [Hc0 Hc]. cbn in Hc0. rewrite Hc0. rewrite map_set_fresh.
    + rewrite IH.
      * rewrite <- app_assoc. destruct r; reflexivity.
      * rewrite fmap_app, <- app_assoc. exact Hnd.
      * exact Hc.
    + intros Hin. apply NoDup_app in Hnd as (_ & Hd & _). apply (Hd i Hin). left.
Qed.

(** Extra: In any worker state with no request queued and no cache entry for
    the cache key of any of the messages, process messages with distinct ids
    followed by one timer firing are answered once each, in arrival order,
    with the signature of their own tasks (or its error). *)
Theorem worker_batch_answers (ws : worker_state) (reqs : list (Z * string * list Task)) (t : Z) :
  pendingTasks ws = [] ->
  NoDup (map (fun r => r.1.2) reqs) ->
  Forall (fun r => map_get (generateCacheKey r.2) (taskCache ws) = None) reqs ->
  (worker_run ws (map process_msg reqs ++ [WTimer t])).2
  = map (fun r => pending_response r.1.2 r.2) reqs.
Proof.
  intros Hp0 Hnd Hc. rewrite worker_run_app. destruct ws as [cache pend armed]. cbn in Hp0, Hc. subst pend.
  rewrite (worker_batch_queue cache reqs [] armed) by assumption. cbn [app].
  destruct reqs as [|r0 rs].
  - cbn. destruct armed; reflexivity.
  - cbn [worker_run worker_step taskCache pendingTasks debounceArmed].
    pose proof (process_pending_responses t cache (map (fun r => (r.1.2, r.2)) (r0 :: rs))) as Hp.
    destruct (process_pending t cache _) as [c out]. cbn in Hp |- *. rewrite app_nil_r, Hp.
    rewrite map_map. reflexivity.
Qed.

Lemma worker_batch_answers_witness :
  NoDup (map (fun r : Z * string * list Task => r.1.2) [(0, "r1", [task_a]); (5, "r2", [task_b])])
  /\ (worker_run (mkWorker [("TASK-0003:undefined", mkEntry [] 0 1)] [] false)
        (map process_msg [(0, "r1", [task_a]); (5, "r2", [task_b])] ++ [WTimer 300])).2
     = [pending_response "r1" [task_a]; pending_response "r2" [task_b]].
Proof.
  assert (H : NoDup (map (fun r : Z * string * list Task => r.1.2) [(0, "r1", [task_a]); (5, "r2", [task_b])]))
    by (cbn; repeat constructor; set_solver).
  split; [exact H|].
  apply (worker_batch_answers (mkWorker [("TASK-0003:undefined", mkEntry [] 0 1)] [] false)
           [(0, "r1", [task_a]); (5, "r2", [task_b])] 300);
    [reflexivity | exact H | repeat constructor; vm_compute; reflexivity].
Defined.

(** ** More properties: The task store providers *)

Ltac split_store :=
  repeat (cbv -[String.eqb Nat.eqb];
          match goal with
          | |- context [match ?x with _ => _ end] =>
              lazymatch x with
              | String.eqb _ _ => destruct x
              | Nat.eqb _ _ => destruct x
              | _ => is_var x; destruct x
              end
          end); cbv -[String.eqb Nat.eqb]; try reflexivity.

Lemma simple_fetchAll_settles (fetch : fetch_outcome) (st : store_state) :
  match SimpleProvider.fetchAllTasksFromServer fetch st with
  | (Returned _, st') => isLoadingAllTasks st' = false
  | (Raised _, _) => False
  | (Suspended, _) => fetch = FetchPending
  end.
Proof.
  destruct st as [a l er [|t db] f tr];
  destruct fetch as [[d e]|m|]; split_store.
Qed.

Lemma prefix_nil {A} (r : list A) (P : list A -> Prop) : P [] -> exists u, r = u ++ r /\ P u.
Proof. intros H. exists []. auto. Qed.

Lemma prefix_cons {A} (b : A) (l r : list A) (P : list A -> Prop) :
  (exists u, l = u ++ r /\ P (b :: u)) -> exists u, b :: l = u ++ r /\ P u.
Proof. intros (u & -> & H). exists (b :: u). auto. Qed.

(** Solves [exists u, l = u ++ r /\ P u] when [l] is [r] behind a known
    prefix, leaving [P] of that prefix. *)
Ltac prefix_witness := repeat first [apply prefix_nil | apply prefix_cons].

Lemma worker_fetchAll_db (cur : js_value) (fetch : fetch_outcome) (w : option worker_reply)
    (st : store_state) :
  let '(o, st') := fetchAllTasksFromServer cur fetch w st in
  exists used, db_fails st = used ++ db_fails st' /\
  match o with
  | Returned _ => isLoadingAllTasks st' = false
  | Raised e => In true used /\ e = db_error /\ isLoadingAllTasks st' = false
  | Suspended => True
  end.
Proof.
  destruct st as [a l er [|t db] f tr];
  destruct fetch as [[d e]|m|]; destruct w as [[x|m'|]|]; split_store;
  prefix_witness; cbn; auto.
Qed.

Lemma worker_fetchAll_settles (cur : js_value) (fetch : fetch_outcome) (w : option worker_reply)
    (st : store_state) :
  let '(o, st') := fetchAllTasksFromServer cur fetch w st in
  exists used new, db_fails st = used ++ db_fails st' /\
  trace st' = trace st ++ new /\ count_effects is_fetch new = 1%nat /\
  match o with
  | Returned _ => isLoadingAllTasks st' = false
  | Raised e => In true used /\ e = db_error /\ isLoadingAllTasks st' = false
  | Suspended => True
  end.
Proof.
  pose proof (worker_fetchAll_db cur fetch w st) as Hdb.
  destruct (fetchAllTasksFromServer_fetches_once cur fetch w st) as (new & Ht & Hc).
  destruct (fetchAllTasksFromServer cur fetch w st) as [o st'].
  destruct Hdb as (used & Hu & Ho). exists used, new. auto.
Qed.

Lemma prefix_app {A} (v l r : list A) (P : list A -> Prop) :
  (exists u, l = u ++ r /\ P (v ++ u)) -> exists u, v ++ l = u ++ r /\ P u.
Proof. intros (u & -> & H). exists (v ++ u). rewrite app_assoc. auto. Qed.

Ltac use_fetchAll :=
  match goal with
  | |- context [fetchAllTasksFromServer ?c ?f ?w ?s] =>
      let Hs := fresh "Hs" in
      pose proof (worker_fetchAll_settles c f w s) as Hs;
      destruct (fetchAllTasksFromServer c f w s) as [[?u|?e|] [?a ?l ?er ?db ?fl ?tr]];
      cbn [db_fails trace isLoadingAllTasks] in Hs;
      destruct Hs as (?used & ?new & ?Hu & ?Ht & ?Hc & ?Ho);
      try (symmetry in Hu; apply app_eq_nil in Hu as [? ?]); subst
  end.

(** Extra: The worker store loadInitialData only appends to the effect trace
    and makes one server fetch, or two when its first fetchAllTasksFromServer
    call rejects because an IndexedDB call inside it failed (the catch block
    fetches again). When it settles the loading flag is cleared, and it
    rejects only when an IndexedDB call it made failed. *)
Theorem worker_loadInitialData_one_fetch (cur : js_value) (fetch1 fetch2 : fetch_outcome)
    (w1 w2 : option worker_reply) (st : store_state) :
  let '(o, st') := WorkerProvider.loadInitialData cur fetch1 fetch2 w1 w2 st in
  exists used, db_fails st = used ++ db_fails st' /\
  exists new, trace st' = trace st ++ new /\
  (count_effects is_fetch new = 1%nat \/ (count_effects is_fetch new = 2%nat /\ In true used)) /\
  match o with
  | Returned _ => isLoadingAllTasks st' = false
  | Raised e => In true used /\ e = db_error /\ isLoadingAllTasks st' = false
  | Suspended => True
  end.
Proof.
  destruct st as [a l er db [|[] f] tr]; unfold WorkerProvider.loadInitialData;
    cbv [mbind M_bind try_catch setIsLoadingAllTasks setErrorLoadingAllTasks setAllTasks emit
         db_toArray db_next];
    cbn [allTasks isLoadingAllTasks errorLoadingAllTasks db_tasks db_fails trace];
    [destruct db as [|t db] .. ]; cbn [length Nat.ltb Nat.leb];
    repeat (use_fetchAll; cbn [db_fails trace isLoadingAllTasks]);
    repeat first [apply prefix_nil | apply prefix_cons | apply prefix_app];
    eexists; (split; [rewrite <- ?app_assoc; reflexivity|]);
    rewrite ?count_effects_app; cbn [count_effects is_fetch app];
    rewrite ?count_effects_app; repeat match goal with H : count_effects is_fetch _ = _ |- _ => rewrite H; clear H end;
    cbn [Nat.add In]; rewrite ?in_app_iff; intuition.
Qed.


(** Extra: The first provider fetchAllTasksFromServer never rejects and clears
    the loading flag when it settles, so its loadInitialData never reaches its
    retry branch and never yields a retry count. *)
Theorem simple_provider_never_retries (fetch : fetch_outcome) (st : store_state) :
  match SimpleProvider.fetchAllTasksFromServer fetch st with
  | (Returned _, st') => isLoadingAllTasks st' = false
  | (Raised _, _) => False
  | (Suspended, _) => fetch = FetchPending
  end
  /\ forall retryCount,
       match (SimpleProvider.loadInitialData retryCount fetch st).1 with
       | Returned None | Suspended => True
       | _ => False
       end.
Proof.
  pose proof (simple_fetchAll_settles fetch st) as H. split; [exact H|]. intros n.
  unfold SimpleProvider.loadInitialData, try_catch, mbind, M_bind.
  destruct (SimpleProvider.fetchAllTasksFromServer fetch st) as [[u|e|] st']; cbn; tauto.
Qed.

(** Extra: The debounced store loadInitialData never rejects, and whenever it
    settles the loading flag is still set: it sets the flag and, unlike the
    other providers, never goes through fetchAllTasksFromServer, whose
    finally block is the one that clears it. *)
Theorem debounced_loadInitialData_keeps_loading (db_first : bool) (fetch : fetch_outcome)
    (st : store_state) :
  match DebouncedProvider.loadInitialData db_first fetch st with
  | (Raised _, _) => False
  | (_, st') => isLoadingAllTasks st' = true
  end.
Proof.
  destruct st as [a l er [|t db] [] tr]; destruct fetch as [[d e]|m|]; destruct db_first;
    split_store.
Qed.

(** Extra: The worker store fetchAll uses up the failure script of
    IndexedDB only by the calls it makes ([used], one entry per call); when
    it settles it clears the loading flag, and it rejects only when one of
    its own IndexedDB calls failed, with that error. *)
Theorem worker_fetchAll_rejects_only_on_db_failure (cur : js_value) (fetch : fetch_outcome)
    (w : option worker_reply) (st : store_state) :
  let '(o, st') := fetchAllTasksFromServer cur fetch w st in
  exists used, db_fails st = used ++ db_fails st' /\
  match o with
  | Returned _ => isLoadingAllTasks st' = false
  | Raised e => In true used /\ e = db_error /\ isLoadingAllTasks st' = false
  | Suspended => True
  end.
Proof. exact (worker_fetchAll_db cur fetch w st). Qed.

(** ** More properties: Counts and ranges of queries.ts *)

Lemma fold_pbump_counts (l : list Task) (c : priority_counts) :
  fold_left (fun c t => pbump c (priority t)) l c
  = mkPCounts (c_low c + indexed_pcount l Low) (c_medium c + indexed_pcount l Medium)
      (c_high c + indexed_pcount l High).
Proof.
  revert c; induction l as [|t l IH]; intros c; cbn.
  - destruct c; cbn. f_equal; lia.
  - rewrite IH. unfold indexed_pcount. cbn.
    destruct (priority t); repeat case_decide; try congruence; cbn; f_equal; apply plus_n_Sm.
Qed.

(** Extra: Both versions of getTaskPriorityCounts give the same counts; each
    count is the number of tasks with that priority, and the three counts sum
    to the number of tasks (0 when the read fails). *)
Theorem getTaskPriorityCounts_scan_indexed_agree (tasks : list Task) (fails : bool) :
  getTaskPriorityCounts_scan tasks fails = getTaskPriorityCounts_indexed tasks fails
  /\ (forall p, pcount_of (getTaskPriorityCounts_scan tasks false) p
                = length (filter (fun t => priority t = p) tasks))
  /\ (c_low (getTaskPriorityCounts_scan tasks fails) + c_medium (getTaskPriorityCounts_scan tasks fails)
      + c_high (getTaskPriorityCounts_scan tasks fails) = if fails then 0 else length tasks)%nat.
Proof.
  split; [|split].
  - unfold getTaskPriorityCounts_scan, getTaskPriorityCounts_indexed.
    destruct fails; [reflexivity|]. cbn. rewrite fold_pbump_counts. reflexivity.
  - intros p. unfold getTaskPriorityCounts_scan. cbn. rewrite fold_pbump_counts.
    destruct p; reflexivity.
  - unfold getTaskPriorityCounts_scan. destruct fails; [reflexivity|]. cbn.
    rewrite fold_pbump_counts. cbn. unfold indexed_pcount.
    induction tasks as [|t r IH]; [reflexivity|]. rewrite !filter_cons.
    destruct (priority t); repeat case_decide; try congruence; cbn; lia.
Qed.

(** Extra: The four counts of getTaskStatusCounts sum to the number of tasks,
    or to 0 when the IndexedDB read fails. *)
Theorem getTaskStatusCounts_total (tasks : list Task) (fails : bool) :
  (c_todo (getTaskStatusCounts_scan tasks fails) + c_in_progress (getTaskStatusCounts_scan tasks fails)
   + c_done (getTaskStatusCounts_scan tasks fails) + c_canceled (getTaskStatusCounts_scan tasks fails)
   = if fails then 0 else length tasks)%nat.
Proof.
  unfold getTaskStatusCounts_scan. destruct fails; [reflexivity|]. cbn.
  rewrite fold_bump_counts. cbn. unfold indexed_count.
  induction tasks as [|t r IH]; [reflexivity|]. rewrite !filter_cons.
  destruct (status t); repeat case_decide; try congruence; cbn; lia.
Qed.

Lemma fold_min_spec (r : list Z) (x : Z) :
  fold_left Z.min r x <= x /\ (forall y, y ∈ r -> fold_left Z.min r x <= y)
  /\ (fold_left Z.min r x = x \/ fold_left Z.min r x ∈ r).
Proof.
  revert x. induction r as [|z r IH]; intros x; cbn.
  - split; [lia|]. split; [intros y Hy; inversion Hy|]. left; reflexivity.
  - destruct (IH (Z.min x z)) as (H1 & H2 & H3). split; [lia|]. split.
    + intros y [->|Hy]%elem_of_cons; [lia|]. apply H2, Hy.
    + destruct H3 as [H3|H3]; [|right; by right].
      destruct (Z.min_spec x z) as [[_ Hm]|[_ Hm]]; rewrite H3, Hm; [left; reflexivity|right; left].
Qed.

Lemma fold_max_spec (r : list Z) (x : Z) :
  x <= fold_left Z.max r x /\ (forall y, y ∈ r -> y <= fold_left Z.max r x)
  /\ (fold_left Z.max r x = x \/ fold_left Z.max r x ∈ r).
Proof.
  revert x. induction r as [|z r IH]; intros x; cbn.
  - split; [lia|]. split; [intros y Hy; inversion Hy|]. left; reflexivity.
  - destruct (IH (Z.max x z)) as (H1 & H2 & H3). split; [lia|]. split.
    + intros y [->|Hy]%elem_of_cons; [lia|]. apply H2, Hy.
    + destruct H3 as [H3|H3]; [|right; by right].
      destruct (Z.max_spec x z) as [[_ Hm]|[_ Hm]]; rewrite H3, Hm; [right; left|left; reflexivity].
Qed.

#[local] Instance hours_le_trans : Transitive hours_le.
Proof. intros a b c. unfold hours_le. rewrite !Z.leb_le. lia. Qed.

Lemma orderBy_sorted (tasks : list Task) : StronglySorted hours_le (orderBy_estimatedHours tasks).
Proof.
  apply Sorted_StronglySorted; [apply _|]. apply sort_by_Sorted.
  intros a b. rewrite Z.leb_gt, Z.leb_le. lia.
Qed.

Lemma StronglySorted_last (l : list Task) (x : Task) :
  StronglySorted hours_le l -> last l = Some x -> forall y, y ∈ l -> hours_le y x \/ y = x.
Proof.
  induction l as [|z r IH]; intros Hs Hl y Hy; [inversion Hy|].
  inversion Hs as [|? ? Hr Hf]; subst.
  destruct r as [|w r'].
  - cbn in Hl. injection Hl as ->. apply elem_of_cons in Hy as [->|Hy]; [right; reflexivity | inversion Hy].
  - assert (Hl' : last (w :: r') = Some x) by exact Hl.
    apply elem_of_cons in Hy as [->|Hy]; [|apply IH; assumption].
    left. assert (Hx : x ∈ w :: r') by (apply last_Some_elem_of; exact Hl').
    rewrite Forall_forall in Hf. apply Hf. exact Hx.
Qed.

Lemma math_min_hours (x : Task) (r : list Task) :
  (forall t, t ∈ x :: r -> math_min (map estimatedHours (x :: r)) <= estimatedHours t)
  /\ exists t, t ∈ x :: r /\ estimatedHours t = math_min (map estimatedHours (x :: r)).
Proof.
  cbn. destruct (fold_min_spec (map estimatedHours r) (estimatedHours x)) as (H1 & H2 & H3).
  split.
  - intros t [->|Ht]%elem_of_cons; [exact H1|]. apply H2, list_elem_of_fmap. eauto.
  - destruct H3 as [H3|H3].
    + exists x. split; [left|symmetry; exact H3].
    + apply list_elem_of_fmap in H3 as (t & Ht & Hin). exists t. split; [right; exact Hin|symmetry; exact Ht].
Qed.

Lemma math_max_hours (x : Task) (r : list Task) :
  (forall t, t ∈ x :: r -> estimatedHours t <= math_max (map estimatedHours (x :: r)))
  /\ exists t, t ∈ x :: r /\ estimatedHours t = math_max (map estimatedHours (x :: r)).
Proof.
  cbn. destruct (fold_max_spec (map estimatedHours r) (estimatedHours x)) as (H1 & H2 & H3).
  split.
  - intros t [->|Ht]%elem_of_cons; [exact H1|]. apply H2, list_elem_of_fmap. eauto.
  - destruct H3 as [H3|H3].
    + exists x. split; [left|symmetry; exact H3].
    + apply list_elem_of_fmap in H3 as (t & Ht & Hin). exists t. split; [right; exact Hin|symmetry; exact Ht].
Qed.

(** Extra: Both versions of getEstimatedHoursRange agree; on a non-empty
    readable table the range bounds every task and both ends are estimated
    hours of some task, otherwise it is 0 to 0. *)
Theorem getEstimatedHoursRange_agree (tasks : list Task) (fails : bool) :
  getEstimatedHoursRange_scan tasks fails = getEstimatedHoursRange_indexed tasks fails
  /\ match db_read tasks fails with
     | Ok (_ :: _) =>
         (forall t, t ∈ tasks ->
            r_min (getEstimatedHoursRange_scan tasks fails) <= estimatedHours t
            <= r_max (getEstimatedHoursRange_scan tasks fails))
         /\ (exists t, t ∈ tasks /\ estimatedHours t = r_min (getEstimatedHoursRange_scan tasks fails))
         /\ (exists t, t ∈ tasks /\ estimatedHours t = r_max (getEstimatedHoursRange_scan tasks fails))
     | _ => getEstimatedHoursRange_scan tasks fails = mkRange 0 0
     end.
Proof.
  unfold getEstimatedHoursRange_scan, getEstimatedHoursRange_indexed, db_read.
  destruct fails; [split; reflexivity|].
  destruct tasks as [|x r]; [split; reflexivity|].
  cbn [length Nat.eqb].
  destruct (math_min_hours x r) as (Hmin & tm & Htm & Em).
  destruct (math_max_hours x r) as (Hmax & tM & HtM & EM).
  set (s := orderBy_estimatedHours (x :: r)).
  assert (Hp : s ≡ₚ x :: r) by apply sort_by_perm.
  assert (Hss : StronglySorted hours_le s) by apply orderBy_sorted.
  destruct s as [|h s'] eqn:Es; [apply Permutation_nil_cons in Hp as []|].
  destruct (last (h :: s')) as [l|] eqn:El;
    [|apply last_None in El; discriminate].
  assert (Hh : h ∈ x :: r) by (rewrite <-Hp; left).
  assert (Hl : l ∈ x :: r) by (rewrite <-Hp; eapply last_Some_elem_of; exact El).
  split; [cbn [head]; f_equal|cbn [r_min r_max]; split; [intros t Ht; split; auto|split; eauto]].
  - apply Z.le_antisymm; [apply Hmin, Hh|].
    rewrite <-Em. apply StronglySorted_cons in Hss as [Hf _].
    assert (Htm' : tm ∈ h :: s') by (rewrite Hp; exact Htm).
    apply elem_of_cons in Htm' as [->|Htm']; [lia|].
    rewrite Forall_forall in Hf. apply Z.leb_le, Hf, Htm'.
  - apply Z.le_antisymm; [|apply Hmax, Hl].
    rewrite <-EM.
    assert (HtM' : tM ∈ h :: s') by (rewrite Hp; exact HtM).
    destruct (StronglySorted_last _ _ Hss El tM HtM') as [Hle| ->]; [apply Z.leb_le, Hle|lia].
Qed.

